(** * TrainingAgent: the Python front end of the ORTModule training agent

    Source: orttraining/orttraining/python/training/training_agent.py

    The class [TrainingAgent] is a thin Python wrapper: its constructor
    builds an [onnxruntime.InferenceSession] and a native
    [C_TrainingAgent] over that session, and its methods forward to the
    native agent, wrapping each returned native value as an [OrtValue].

    The native layer (the pybind module and the [InferenceSession],
    [IOBinding] and [OrtValue] classes) is not part of this file of the
    repository.  The first part of the development therefore takes it as
    an interface, [Backend], and embeds the Python methods over any
    implementation of it.  The second part, [Engine], is one
    implementation of that interface, written from the design document. *)

From Stdlib Require Import ZArith List String.
From stdpp Require Import base option list gmap strings.

Open Scope string_scope.
Open Scope list_scope.

(** ** The native interface *)

(** What the Python file imports: the types and the entry points of
    [onnxruntime], [onnxruntime.capi._pybind_state] (imported as [C]) and
    [onnxruntime.capi.onnxruntime_inference_collection].  Every entry
    point runs in the native world and either raises or returns. *)
Class Backend := {
  World : Type;
  Err : Type;
  PathOrBytes : Type;
  SessionOptions : Type;
  Providers : Type;
  ProviderOptions : Type;
  RunOptions : Type;
  InferenceSession : Type;
  C_InferenceSession : Type;
  C_TrainingAgent : Type;
  C_SessionIOBinding : Type;
  C_OrtValue : Type;
  RunId : Type;
  TokenId : Type;
  (* the attribute [_sess] of an [InferenceSession] object *)
  _sess : InferenceSession → C_InferenceSession;
  (* onnxruntime.InferenceSession(path_or_bytes, session_options,
                                  providers, provider_options) *)
  new_InferenceSession :
    PathOrBytes → option SessionOptions → option Providers →
    option ProviderOptions → World → (Err + InferenceSession) * World;
  (* C_TrainingAgent(sess) *)
  new_C_TrainingAgent :
    C_InferenceSession → World → (Err + C_TrainingAgent) * World;
  (* C.SessionIOBinding(sess), called by IOBinding.__init__ *)
  new_C_SessionIOBinding :
    C_InferenceSession → World → (Err + C_SessionIOBinding) * World;
  C_run_forward :
    C_TrainingAgent → C_SessionIOBinding → RunOptions → World →
    (Err + list C_OrtValue * RunId * TokenId) * World;
  C_resume_forward :
    C_TrainingAgent → list C_OrtValue → RunId → World →
    (Err + list C_OrtValue * RunId * TokenId) * World;
  C_run_backward :
    C_TrainingAgent → list C_OrtValue → RunId → World →
    (Err + list C_OrtValue * RunId * TokenId) * World;
}.

(** ** The Python layer *)

Section Agent.
Context {B : Backend}.

(** Modelled from the spec: the class [OrtValue] of
    [onnxruntime_inference_collection], the Value collaborator "wrapped
    at the agent boundary".  [OrtValue(v)] stores the native value in
    the attribute [_ortvalue]. *)
Record OrtValue := mk_OrtValue { _ortvalue : C_OrtValue }.

(** Modelled from the spec: the class [IOBinding] of
    [onnxruntime_inference_collection], the I/O Binding collaborator
    bound to a session.  The source reads its attribute [_iobinding]. *)
Record IOBinding := mk_IOBinding { _iobinding : C_SessionIOBinding }.

(** A [TrainingAgent] instance: its two attributes, each [None] or set. *)
Record TrainingAgent := mk_TrainingAgent {
  _training_agent : option C_TrainingAgent;
  _inference_session : option InferenceSession;
}.

(** The objects kept by address are those whose attributes the methods
    read or assign: agents and bindings.  A session and the [OrtValue]
    wrappers of a result are never written to after they are built and
    are carried as values; what is said of the objects below is
    therefore said of agents and bindings, and does not count the
    wrappers and sessions a call builds. *)
Inductive obj :=
| ObjTrainingAgent (a : TrainingAgent)
| ObjIOBinding (b : IOBinding).

(** Exceptions seen by the caller: the ones Python raises on a missing
    attribute (of [None], or of an object of another class), and the
    ones the native layer raises. *)
Inductive exn :=
| AttributeError (attr : string)
| Native (e : Err).

(** The calls into the native layer, with their arguments, in the order
    they are made. *)
Inductive native_call :=
| CallInferenceSession (p : PathOrBytes) (so : option SessionOptions)
    (pr : option Providers) (po : option ProviderOptions)
| CallTrainingAgent (s : C_InferenceSession)
| CallSessionIOBinding (s : C_InferenceSession)
| CallRunForward (ag : C_TrainingAgent) (io : C_SessionIOBinding)
    (ro : RunOptions)
| CallResumeForward (ag : C_TrainingAgent) (vals : list C_OrtValue)
    (rid : RunId)
| CallRunBackward (ag : C_TrainingAgent) (vals : list C_OrtValue)
    (rid : RunId).

(** The interpreter state: the Python objects by address, the native
    world, and the log of native calls. *)
Record state := mk_state {
  heap : gmap nat obj;
  world : World;
  trace : list native_call;
}.

Definition M (A : Type) : Type := state → (exn + A) * state.

Definition raise {A} (e : exn) : M A := λ st, (inl e, st).

#[export] Instance M_ret : MRet M := λ A a st, (inr a, st).

#[export] Instance M_bind : MBind M := λ A C k m st,
  match m st with
  | (inl e, st') => (inl e, st')
  | (inr a, st') => k a st'
  end.

(** A native entry point called from Python: it runs in the native
    world, its call is logged, its exception becomes a Python one. *)
Definition native {A} (c : native_call)
    (f : World → (Err + A) * World) : M A :=
  λ st, let '(r, w) := f (world st) in
        let st' := mk_state (heap st) w (trace st ++ [c]) in
        match r with
        | inl e => (inl (Native e), st')
        | inr a => (inr a, st')
        end.

(** Object creation: a new object lives at an address no object has. *)
Definition alloc (o : obj) : M nat :=
  λ st, let l := fresh (dom (heap st)) in
        (inr l, mk_state (<[l := o]> (heap st)) (world st) (trace st)).

(** Reading [self._training_agent] and [self._inference_session]. *)
Definition get_training_agent (self : nat) : M (option C_TrainingAgent) :=
  λ st, match heap st !! self with
        | Some (ObjTrainingAgent a) => (inr (_training_agent a), st)
        | _ => (inl (AttributeError "_training_agent"), st)
        end.

Definition get_inference_session (self : nat) : M (option InferenceSession) :=
  λ st, match heap st !! self with
        | Some (ObjTrainingAgent a) => (inr (_inference_session a), st)
        | _ => (inl (AttributeError "_inference_session"), st)
        end.

(** Assigning [self._training_agent = v] and
    [self._inference_session = v]. *)
Definition set_training_agent (self : nat) (v : option C_TrainingAgent)
    : M unit :=
  λ st, match heap st !! self with
        | Some (ObjTrainingAgent a) =>
            (inr tt,
             mk_state
               (<[self := ObjTrainingAgent
                            (mk_TrainingAgent v (_inference_session a))]>
                  (heap st))
               (world st) (trace st))
        | _ => (inl (AttributeError "_training_agent"), st)
        end.

Definition set_inference_session (self : nat)
    (v : option InferenceSession) : M unit :=
  λ st, match heap st !! self with
        | Some (ObjTrainingAgent a) =>
            (inr tt,
             mk_state
               (<[self := ObjTrainingAgent
                            (mk_TrainingAgent (_training_agent a) v)]>
                  (heap st))
               (world st) (trace st))
        | _ => (inl (AttributeError "_inference_session"), st)
        end.

(** Reading [iobinding._iobinding]. *)
Definition get_iobinding (iobinding : nat) : M C_SessionIOBinding :=
  λ st, match heap st !! iobinding with
        | Some (ObjIOBinding b) => (inr (_iobinding b), st)
        | _ => (inl (AttributeError "_iobinding"), st)
        end.

(** [x.attr] where [x] may be [None]. *)
Definition not_None {A} (attr : string) (x : option A) : M A :=
  match x with
  | Some a => mret a
  | None => raise (AttributeError attr)
  end.

(** Modelled from the spec: the constructor of [IOBinding], which binds
    the new object to the session it is given: it reads the session's
    [_sess] and builds the native binding over it. *)
Definition new_IOBinding (session : option InferenceSession) : M nat :=
  s ← not_None "_sess" session;
  h ← native (CallSessionIOBinding (_sess s))
        (new_C_SessionIOBinding (_sess s));
  alloc (ObjIOBinding (mk_IOBinding h)).

(** [[OrtValue(ortvalue) for ortvalue in ortvalues]], [run_id],
    [token_id]: the return expression shared by the four run methods. *)
Definition wrap (r : list C_OrtValue * RunId * TokenId)
    : list OrtValue * RunId * TokenId :=
  let '(ortvalues, run_id, token_id) := r in
  (map mk_OrtValue ortvalues, run_id, token_id).

(** *** The methods of [TrainingAgent] *)

Definition create_training_agent (self : nat) (path_or_bytes : PathOrBytes)
    (session_options : option SessionOptions)
    (providers : option Providers)
    (provider_options : option ProviderOptions) : M unit :=
  s ← native (CallInferenceSession path_or_bytes session_options
                providers provider_options)
        (new_InferenceSession path_or_bytes session_options
           providers provider_options);
  set_inference_session self (Some s);;
  o ← get_inference_session self;
  s' ← not_None "_sess" o;
  ag ← native (CallTrainingAgent (_sess s'))
         (new_C_TrainingAgent (_sess s'));
  set_training_agent self (Some ag).

Definition __init__ (self : nat) (path_or_bytes : PathOrBytes)
    (session_options : option SessionOptions)
    (providers : option Providers)
    (provider_options : option ProviderOptions) : M unit :=
  set_training_agent self None;;
  set_inference_session self None;;
  create_training_agent self path_or_bytes session_options providers
    provider_options.

(** The expression [TrainingAgent(path_or_bytes, ...)]: a new object is
    created, [__init__] runs on it, and the object is the value of the
    expression only if [__init__] returns. *)
Definition new_TrainingAgent (path_or_bytes : PathOrBytes)
    (session_options : option SessionOptions)
    (providers : option Providers)
    (provider_options : option ProviderOptions) : M nat :=
  self ← alloc (ObjTrainingAgent (mk_TrainingAgent None None));
  __init__ self path_or_bytes session_options providers provider_options;;
  mret self.

Definition io_binding (self : nat) : M nat :=
  s ← get_inference_session self;
  new_IOBinding s.

Definition run_forward (self iobinding : nat) (run_options : RunOptions)
    : M (list OrtValue * RunId * TokenId) :=
  o ← get_training_agent self;
  ag ← not_None "run_forward" o;
  io ← get_iobinding iobinding;
  r ← native (CallRunForward ag io run_options)
        (C_run_forward ag io run_options);
  mret (wrap r).

Definition resume_forward (self : nat) (resume_inputs : list C_OrtValue)
    (run_id : RunId) : M (list OrtValue * RunId * TokenId) :=
  o ← get_training_agent self;
  ag ← not_None "resume_forward" o;
  r ← native (CallResumeForward ag resume_inputs run_id)
        (C_resume_forward ag resume_inputs run_id);
  mret (wrap r).

Definition run_backward (self : nat) (backward_output_grads : list C_OrtValue)
    (run_id : RunId) : M (list OrtValue * RunId * TokenId) :=
  o ← get_training_agent self;
  ag ← not_None "run_backward" o;
  r ← native (CallRunBackward ag backward_output_grads run_id)
        (C_run_backward ag backward_output_grads run_id);
  mret (wrap r).

Definition resume_backward (self : nat) (resume_inputs : list C_OrtValue)
    (run_id : RunId) : M (list OrtValue * RunId * TokenId) :=
  o ← get_training_agent self;
  ag ← not_None "run_backward" o;
  r ← native (CallRunBackward ag resume_inputs run_id)
        (C_run_backward ag resume_inputs run_id);
  mret (wrap r).

(** What a logged run call computes in the native world ([None] for the
    constructors, which return no values). *)
Definition primitive_result (c : native_call) (w : World)
    : option ((Err + list C_OrtValue * RunId * TokenId) * World) :=
  match c with
  | CallRunForward ag io ro => Some (C_run_forward ag io ro w)
  | CallResumeForward ag vals rid => Some (C_resume_forward ag vals rid w)
  | CallRunBackward ag vals rid => Some (C_run_backward ag vals rid w)
  | _ => None
  end.

(** *** Callers *)

(** A call of one of the four run methods, with its arguments. *)
Inductive request :=
| ReqRunForward (iobinding : nat) (run_options : RunOptions)
| ReqResumeForward (resume_inputs : list C_OrtValue) (run_id : RunId)
| ReqRunBackward (backward_output_grads : list C_OrtValue) (run_id : RunId)
| ReqResumeBackward (resume_inputs : list C_OrtValue) (run_id : RunId).

Definition perform (self : nat) (q : request)
    : M (list OrtValue * RunId * TokenId) :=
  match q with
  | ReqRunForward io ro => run_forward self io ro
  | ReqResumeForward v r => resume_forward self v r
  | ReqRunBackward v r => run_backward self v r
  | ReqResumeBackward v r => resume_backward self v r
  end.

(** The run identifier a request asks to continue from, if any. *)
Definition resumes (q : request) : option RunId :=
  match q with
  | ReqRunForward _ _ => None
  | ReqResumeForward _ r => Some r
  | ReqRunBackward _ r => Some r
  | ReqResumeBackward _ r => Some r
  end.

(** What a program can do with the class: construct an agent, and call
    a method on an object it holds. *)
Inductive action :=
| ActConstruct (path_or_bytes : PathOrBytes)
    (session_options : option SessionOptions)
    (providers : option Providers)
    (provider_options : option ProviderOptions)
| ActCreate (self : nat) (path_or_bytes : PathOrBytes)
    (session_options : option SessionOptions)
    (providers : option Providers)
    (provider_options : option ProviderOptions)
| ActIoBinding (self : nat)
| ActRun (self : nat) (q : request).

(** The state an action leaves, whether it returns or raises. *)
Definition step (st : state) (a : action) : state :=
  match a with
  | ActConstruct p so pr po => (new_TrainingAgent p so pr po st).2
  | ActCreate self p so pr po => (create_training_agent self p so pr po st).2
  | ActIoBinding self => (io_binding self st).2
  | ActRun self q => (perform self q st).2
  end.

Definition steps (st : state) (acts : list action) : state :=
  foldl step st acts.

(** The action is a call of [create_training_agent] on [self]. *)
Definition recreates (self : nat) (a : action) : bool :=
  match a with
  | ActCreate l _ _ _ _ => bool_decide (l = self)
  | _ => false
  end.

(** *** Predicates on states *)

(** A constructed agent lives at [self]. *)
Definition agent_at (st : state) (self : nat) (a : TrainingAgent)
    (ag : C_TrainingAgent) : Prop :=
  heap st !! self = Some (ObjTrainingAgent a) ∧ _training_agent a = Some ag.

(** The state after one logged native call. *)
Definition logged (st : state) (c : native_call) (w : World) : state :=
  mk_state (heap st) w (trace st ++ [c]).

(** What a run method makes of the outcome of its native call. *)
Definition deliver (st : state) (c : native_call)
    (out : (Err + list C_OrtValue * RunId * TokenId) * World)
    : (exn + list OrtValue * RunId * TokenId) * state :=
  match out.1 with
  | inl e => (inl (Native e), logged st c out.2)
  | inr r => (inr (wrap r), logged st c out.2)
  end.

(** [m] keeps [I]: it holds after [m] if it held before, whether [m]
    returns or raises. *)
Definition keeps {A} (I : state → Prop) (m : M A) : Prop :=
  ∀ st, I st → I (m st).2.

(** The object at address [l] is [o]. *)
Definition holds (l : nat) (o : obj) : state → Prop :=
  λ st, heap st !! l = Some o.

(** A property of the native world that every native entry point
    keeps. *)
Record stable (P : World → Prop) : Prop := {
  stable_InferenceSession p so pr po w :
    P w → P (new_InferenceSession p so pr po w).2;
  stable_TrainingAgent s w : P w → P (new_C_TrainingAgent s w).2;
  stable_SessionIOBinding s w : P w → P (new_C_SessionIOBinding s w).2;
  stable_run_forward ag io ro w : P w → P (C_run_forward ag io ro w).2;
  stable_resume_forward ag vals rid w :
    P w → P (C_resume_forward ag vals rid w).2;
  stable_run_backward ag vals rid w :
    P w → P (C_run_backward ag vals rid w).2;
}.

Definition on_world (P : World → Prop) : state → Prop :=
  λ st, P (world st).

End Agent.

(** ** A session engine, from the design document *)

Module Engine.

(** Modelled from the spec: the error taxonomy of the suspend/resume
    engine (section 7): construction, invalid-run, configuration and
    value-count errors. *)
Inductive error :=
| ConstructionError
| InvalidRun
| ConfigurationError
| ValueMismatch.

(** Modelled from the spec: a native value, an opaque tensor handle; it
    records the output slot it fills and its content. *)
Record value := mk_value { val_slot : string; val_data : Z }.

(** Modelled from the spec: a subgraph is executed as one unit between
    yields.  Each yield operator declares its output slots; [outputs]
    are the slots of the graph end. *)
Record subgraph := mk_subgraph {
  yields : list (list string);
  outputs : list string;
}.

(** Modelled from the spec: a loaded model is split into a forward and a
    backward subgraph; [kernel] is what its nodes compute for a slot
    from the values fed in (execution is deterministic). *)
Record model := mk_model {
  forward : subgraph;
  backward : subgraph;
  kernel : string → list Z → Z;
}.

Inductive direction := Forward | Backward.

(** Where an execution stopped: at the [k]-th yield operator of its
    subgraph, or at the graph end (the terminal state). *)
Inductive point := AtYield (k : nat) | AtEnd.

(** Modelled from the spec: a continuation token identifies exactly
    where which run paused. *)
Record token := mk_token { tok_run : nat; tok_point : point }.

(** Modelled from the spec: the run identifier handed to the caller; the
    token is embedded within it (section 6). *)
Record run_id := mk_run_id { run_no : nat; run_token : token }.

(** Modelled from the spec: the run-scoped execution state registered
    inside the session, keyed by the run number (sections 3 and 4). *)
Record run := mk_run {
  run_session : nat;
  run_dir : direction;
  run_point : point;
}.

(** An execution-provider selector: a bare name, or a name paired with a
    provider-specific options mapping. *)
Inductive selector :=
| ProviderName (name : string)
| ProviderWithOptions (name : string) (opts : list (string * string)).

Record session_options := mk_session_options {
  load_model_format : option string;
}.

Record session := mk_session {
  sess_handle : nat;
  sess_providers : list string;
}.

Record binding := mk_binding {
  io_session : nat;
  io_inputs : list value;
}.

Record agent := mk_agent { agent_session : nat }.

(** Per-call run options; the engine passes them through. *)
Record run_options := mk_run_options {
  log_severity_level : nat;
  terminate : bool;
}.

(** The native world: what each path or byte string loads to, the
    providers of the build, the loaded sessions and the runs (a handle
    is an index), and the number of subgraph executions so far. *)
Record machine := mk_machine {
  models : gmap string model;
  available : list string;
  sessions : list model;
  runs : list run;
  executed : nat;
}.

#[export] Instance direction_eq_dec : EqDecision direction.
Proof. solve_decision. Defined.
#[export] Instance point_eq_dec : EqDecision point.
Proof. solve_decision. Defined.
#[export] Instance token_eq_dec : EqDecision token.
Proof. solve_decision. Defined.

Definition selector_name (s : selector) : string :=
  match s with
  | ProviderName n => n
  | ProviderWithOptions n _ => n
  end.

Definition has_inline_options (s : selector) : bool :=
  match s with
  | ProviderName _ => false
  | ProviderWithOptions _ _ => true
  end.

(** Modelled from the spec: the parallel options list is "mutually
    exclusive with per-provider inline options -- supplying both is a
    configuration error". *)
Definition conflicting (providers : option (list selector))
    (provider_options : option (list (list (string * string)))) : bool :=
  match providers, provider_options with
  | Some ps, Some _ => existsb has_inline_options ps
  | _, _ => false
  end.

Definition recognized_format (so : option session_options) : bool :=
  match so with
  | Some o =>
      match load_model_format o with
      | Some f => bool_decide (f = "ONNX") || bool_decide (f = "ORT")
      | None => true
      end
  | None => true
  end.

(** Providers in order of precedence: the requested ones the build has,
    or all of them when none is requested. *)
Definition resolve (w : machine) (providers : option (list selector))
    : list string :=
  match providers with
  | None => available w
  | Some ps =>
      filter (λ n, n ∈ available w) (selector_name <$> ps)
  end.

(** Modelled from the spec: session construction (sections 4.1, 6, 7).
    A configuration error is "surfaced at construction time"; the
    construction error covers "model failed to load, declared format
    unrecognized/invalid, or no requested execution provider could be
    resolved". *)
Definition new_session (path_or_bytes : string)
    (so : option session_options)
    (providers : option (list selector))
    (provider_options : option (list (list (string * string))))
    (w : machine) : (error + session) * machine :=
  if conflicting providers provider_options then (inl ConfigurationError, w)
  else if negb (recognized_format so) then (inl ConstructionError, w)
  else match models w !! path_or_bytes with
       | None => (inl ConstructionError, w)
       | Some m =>
           match resolve w providers with
           | [] => (inl ConstructionError, w)
           | ps =>
               (inr (mk_session (length (sessions w)) ps),
                mk_machine (models w) (available w) (sessions w ++ [m])
                  (runs w) (executed w))
           end
       end.

(** Modelled from the spec: "build an agent bound to a session's
    internal execution context, after that session has already loaded a
    model"; "construction fails if the underlying session failed to
    load". *)
Definition new_agent (sess : nat) (w : machine) : (error + agent) * machine :=
  match sessions w !! sess with
  | Some _ => (inr (mk_agent sess), w)
  | None => (inl ConstructionError, w)
  end.

Definition new_binding (sess : nat) (w : machine)
    : (error + binding) * machine :=
  (inr (mk_binding sess []), w).

(** The declared output slots of a stopping point. *)
Definition slots_at (g : subgraph) (p : point) : list string :=
  match p with
  | AtYield k => default [] (yields g !! k)
  | AtEnd => outputs g
  end.

(** The first stopping point from yield index [k] on. *)
Definition stop_from (g : subgraph) (k : nat) : point :=
  if decide (k < length (yields g)) then AtYield k else AtEnd.

Definition subgraph_of (m : model) (d : direction) : subgraph :=
  match d with Forward => forward m | Backward => backward m end.

(** One value per declared slot, in the order of the slots. *)
Definition produce (m : model) (slots : list string) (inputs : list value)
    : list value :=
  (λ s, mk_value s (kernel m s (val_data <$> inputs))) <$> slots.

Definition handle_of (n : nat) (p : point) : run_id :=
  mk_run_id n (mk_token n p).

Definition set_runs (w : machine) (rs : list run) : machine :=
  mk_machine (models w) (available w) (sessions w) rs (S (executed w)).

(** Modelled from the spec (4.2): execute the forward subgraph from its
    start to the first yield operator, or to the graph end; register the
    run under a freshly allocated run identifier. *)
Definition engine_run_forward (ag : agent) (io : binding) (ro : run_options)
    (w : machine) : (error + list value * run_id * token) * machine :=
  match sessions w !! agent_session ag with
  | None => (inl InvalidRun, w)
  | Some m =>
      let p := stop_from (forward m) 0 in
      let n := length (runs w) in
      (inr (produce m (slots_at (forward m) p) (io_inputs io),
            handle_of n p, mk_token n p),
       set_runs w (runs w ++ [mk_run (agent_session ag) Forward p]))
  end.

(** The suspended run a run identifier denotes for an agent, with the
    index of the yield it is suspended at: the run is known, belongs to
    the agent's session, runs in direction [d], is suspended, and the
    identifier carries its current token. *)
Definition suspended (ag : agent) (d : direction) (rid : run_id)
    (w : machine) : option (run * nat) :=
  r ← runs w !! run_no rid;
  match run_point r with
  | AtYield k =>
      if bool_decide (run_session r = agent_session ag)
         && bool_decide (run_dir r = d)
         && bool_decide (run_token rid = mk_token (run_no rid) (AtYield k))
      then Some (r, k) else None
  | AtEnd => None
  end.

(** Modelled from the spec (4.3, 4.5): restore the suspended run,
    substitute the supplied values for the yielded slots, continue to the
    next yield operator or the graph end.  The run keeps its number and
    gets a new token. *)
Definition engine_resume (d : direction) (ag : agent)
    (inputs : list value) (rid : run_id) (w : machine)
    : (error + list value * run_id * token) * machine :=
  match suspended ag d rid w, sessions w !! agent_session ag with
  | Some (r, k), Some m =>
      let g := subgraph_of m d in
      if decide (length inputs = length (slots_at g (AtYield k))) then
        let p := stop_from g (S k) in
        let n := run_no rid in
        (inr (produce m (slots_at g p) inputs, handle_of n p, mk_token n p),
         set_runs w (<[n := mk_run (run_session r) d p]> (runs w)))
      else (inl ValueMismatch, w)
  | _, _ => (inl InvalidRun, w)
  end.

Definition engine_resume_forward := engine_resume Forward.
Definition engine_resume_backward := engine_resume Backward.

(** Modelled from the spec (4.4): the referenced forward run must be
    suspended at a forward yield; backward execution is seeded with the
    gradients and proceeds to the first yield of the backward subgraph
    or to its end, as a run of its own.  The forward token is consumed:
    it is "valid for resumption exactly once". *)
Definition engine_run_backward (ag : agent) (grads : list value)
    (rid : run_id) (w : machine)
    : (error + list value * run_id * token) * machine :=
  match suspended ag Forward rid w, sessions w !! agent_session ag with
  | Some (r, k), Some m =>
      if decide (length grads = length (slots_at (forward m) (AtYield k)))
      then
        let p := stop_from (backward m) 0 in
        let n := length (runs w) in
        (inr (produce m (slots_at (backward m) p) grads,
              handle_of n p, mk_token n p),
         set_runs w
           (<[run_no rid := mk_run (run_session r) Forward AtEnd]> (runs w)
            ++ [mk_run (agent_session ag) Backward p]))
      else (inl ValueMismatch, w)
  | _, _ => (inl InvalidRun, w)
  end.

#[export] Instance backend : Backend := {|
  World := machine;
  Err := error;
  PathOrBytes := string;
  SessionOptions := session_options;
  Providers := list selector;
  ProviderOptions := list (list (string * string));
  RunOptions := run_options;
  InferenceSession := session;
  C_InferenceSession := nat;
  C_TrainingAgent := agent;
  C_SessionIOBinding := binding;
  C_OrtValue := value;
  RunId := run_id;
  TokenId := token;
  _sess := sess_handle;
  new_InferenceSession := new_session;
  new_C_TrainingAgent := new_agent;
  new_C_SessionIOBinding := new_binding;
  C_run_forward := engine_run_forward;
  C_resume_forward := engine_resume_forward;
  C_run_backward := engine_run_backward;
|}.

(** [q] lies after [p] on a run's way through its subgraph. *)
Definition after (q p : point) : Prop :=
  match q, p with
  | AtEnd, _ => True
  | AtYield j, AtYield k => k < j
  | AtYield _, AtEnd => False
  end.

(** Run [n] has moved past the stopping point [p]. *)
Definition past (n : nat) (p : point) (w : machine) : Prop :=
  ∃ r, runs w !! n = Some r ∧ after (run_point r) p.

End Engine.

(** ** Predicates on the states over the engine *)

(** Every constructed agent drives a loaded session, and no two agent
    objects drive the same session. *)
Definition own_sessions (st : @state Engine.backend) : Prop :=
  (∀ l a ag, agent_at st l a ag →
     (Engine.agent_session ag < length (Engine.sessions (world st)))%nat) ∧
  (∀ l1 a1 ag1 l2 a2 ag2,
     agent_at st l1 a1 ag1 → agent_at st l2 a2 ag2 →
     Engine.agent_session ag1 = Engine.agent_session ag2 → l1 = l2).

(** What a step does to the agents and to the sessions: the sessions
    only grow in number, and an agent either was there, with the same
    native agent, or is the one object, at [l0], that the step has bound
    to the session it has just loaded. *)
Definition grows (st st' : @state Engine.backend) (l0 : nat) : Prop :=
  (length (Engine.sessions (world st))
   ≤ length (Engine.sessions (world st')))%nat ∧
  ∀ l a' ag', agent_at st' l a' ag' →
    (∃ a, agent_at st l a ag') ∨
    (l = l0 ∧
     Engine.agent_session ag' = length (Engine.sessions (world st)) ∧
     (length (Engine.sessions (world st))
      < length (Engine.sessions (world st')))%nat).

(** ** Example models and states *)

Module Scenario.
Import Engine.

Definition total (slot : string) (fed : list Z) : Z := foldr Z.add 1%Z fed.

(** A model whose forward subgraph yields twice and whose backward
    subgraph yields once. *)
Definition net : model :=
  mk_model (mk_subgraph [["x"; "y"]; ["z"]] ["loss"])
           (mk_subgraph [["gz"]] ["gx"; "gy"]) total.

(** A model without any yield operator. *)
Definition plain : model :=
  mk_model (mk_subgraph [] ["out1"; "out2"]) (mk_subgraph [] ["gin"]) total.

Definition w0 : machine :=
  mk_machine {["net.onnx" := net; "plain.onnx" := plain]}
    ["CUDAExecutionProvider"; "CPUExecutionProvider"] [] [] 0.

Definition st0 : state := mk_state ∅ w0 [].

Definition ro0 : run_options := mk_run_options 2 false.

(** An agent over [net] at address 0 and a binding of it at address 1. *)
Definition script1 : list action :=
  [ActConstruct "net.onnx" None None None; ActIoBinding 0].

Definition st1 : state := steps st0 script1.

Definition ag0 : agent := mk_agent 0.
Definition obj0 : TrainingAgent :=
  mk_TrainingAgent (Some ag0)
    (Some (mk_session 0 ["CUDAExecutionProvider"; "CPUExecutionProvider"])).

(** The run identifier of run [n] suspended at its [k]-th yield. *)
Definition at_yield (n k : nat) : run_id := handle_of n (AtYield k).

Definition v (slot : string) (d : Z) : value := mk_value slot d.

(** After [run_forward]: run 0 is suspended at the first forward yield. *)
Definition script2 : list action :=
  script1 ++ [ActRun 0 (ReqRunForward 1 ro0)].

Definition st2 : state := steps st0 script2.

(** After [run_backward] on run 0: run 1 is a backward run suspended at
    the yield of the backward subgraph. *)
Definition st3 : state :=
  step st2 (ActRun 0 (ReqRunBackward [v "gx" 5; v "gy" 7] (at_yield 0 0))).

(** A second agent, over [plain], at address 2, with a binding at 3,
    while run 0 of the first agent is suspended. *)
Definition script4 : list action :=
  script2 ++ [ActConstruct "plain.onnx" None None None; ActIoBinding 2].

Definition st4 : state := steps st0 script4.

Definition obj2 : TrainingAgent :=
  mk_TrainingAgent (Some (mk_agent 1))
    (Some (mk_session 1 ["CUDAExecutionProvider"; "CPUExecutionProvider"])).

End Scenario.

(** ** A native layer that fails on demand *)

Module Scripted.

(** A native layer for exercising the failure paths of the Python
    methods: it carries the planned outcome of each coming native call
    ([false]: the call raises) and counts the calls made.  Handles are
    numbers; a session is its own [_sess]. *)
Record script := mk_script {
  plan : list bool;
  calls : nat;
}.

Definition next {A} (result : nat → A) (w : script) : (string + A) * script :=
  match plan w with
  | false :: rest => (inl "native failure", mk_script rest (S (calls w)))
  | true :: rest => (inr (result (calls w)), mk_script rest (S (calls w)))
  | [] => (inr (result (calls w)), mk_script [] (S (calls w)))
  end.

Definition backend : Backend := {|
  World := script;
  Err := string;
  PathOrBytes := string;
  SessionOptions := unit;
  Providers := list string;
  ProviderOptions := list (list (string * string));
  RunOptions := unit;
  InferenceSession := nat;
  C_InferenceSession := nat;
  C_TrainingAgent := nat;
  C_SessionIOBinding := nat;
  C_OrtValue := Z;
  RunId := nat;
  TokenId := nat;
  _sess := λ s, s;
  new_InferenceSession := λ _ _ _ _, next (λ n, n);
  new_C_TrainingAgent := λ s, next (λ _, s);
  new_C_SessionIOBinding := λ s, next (λ _, s);
  C_run_forward := λ ag io ro, next (λ n, ([], n, n));
  C_resume_forward := λ ag vals rid, next (λ n, (vals, rid, n));
  C_run_backward := λ ag vals rid, next (λ n, (vals, n, n));
|}.

(** An empty program state in which the coming native calls go as
    planned. *)
Definition start (outcomes : list bool) : @state backend :=
  @mk_state backend ∅ (mk_script outcomes 0) [].

(** The state after the constructor has run from [start]; when its two
    native calls are planned to return, the agent is at address 0 and
    holds session 0 and native agent 0. *)
Definition built (outcomes : list bool) : @state backend :=
  (@new_TrainingAgent backend "model.onnx" None None None
     (start outcomes)).2.

Definition agent0 : @TrainingAgent backend :=
  @mk_TrainingAgent backend (Some 0) (Some 0).

End Scripted.

(** ** Facts about the Python layer, for any native layer *)

(** Unfolding of the monad and of the attribute reads. *)
Ltac unfold_M :=
  unfold mbind, mret, M_bind, M_ret, raise, native, not_None,
    get_training_agent, get_inference_session, get_iobinding in *.

Section AgentFacts.
Context {B : Backend}.

Implicit Types (st : state) (self : nat) (a : TrainingAgent).

Lemma run_forward_eq st self a ag io b ro :
  agent_at st self a ag →
  heap st !! io = Some (ObjIOBinding b) →
  run_forward self io ro st =
  deliver st (CallRunForward ag (_iobinding b) ro)
    (C_run_forward ag (_iobinding b) ro (world st)).
Proof.
  intros [Hs Ha] Hb. unfold run_forward, deliver, logged. unfold_M.
  rewrite Hs, Ha. simpl. rewrite Hb. simpl.
  by destruct (C_run_forward _ _ _ _) as [[e|r] w].
Qed.

Lemma resume_forward_eq st self a ag vals rid :
  agent_at st self a ag →
  resume_forward self vals rid st =
  deliver st (CallResumeForward ag vals rid)
    (C_resume_forward ag vals rid (world st)).
Proof.
  intros [Hs Ha]. unfold resume_forward, deliver, logged. unfold_M.
  rewrite Hs, Ha. simpl.
  by destruct (C_resume_forward _ _ _ _) as [[e|r] w].
Qed.

Lemma run_backward_eq st self a ag vals rid :
  agent_at st self a ag →
  run_backward self vals rid st =
  deliver st (CallRunBackward ag vals rid)
    (C_run_backward ag vals rid (world st)).
Proof.
  intros [Hs Ha]. unfold run_backward, deliver, logged. unfold_M.
  rewrite Hs, Ha. simpl.
  by destruct (C_run_backward _ _ _ _) as [[e|r] w].
Qed.

(** [resume_backward] has the body of [run_backward]. *)
Lemma resume_backward_is_run_backward self vals rid :
  resume_backward self vals rid = run_backward self vals rid.
Proof. reflexivity. Qed.

Lemma resume_backward_eq st self a ag vals rid :
  agent_at st self a ag →
  resume_backward self vals rid st =
  deliver st (CallRunBackward ag vals rid)
    (C_run_backward ag vals rid (world st)).
Proof. apply run_backward_eq. Qed.

(** A run method that returns has made exactly one native call, a run
    call that returned in the native world. *)
Lemma perform_returns self q st res st' :
  perform self q st = (inr res, st') →
  ∃ c raw, st' = logged st c (world st') ∧
    primitive_result c (world st) = Some (inr raw, world st') ∧
    res = wrap raw.
Proof.
  destruct q as [io ro|vals rid|vals rid|vals rid]; simpl;
    unfold run_forward, resume_forward, run_backward, resume_backward;
    unfold_M; intros H;
    repeat (case_match; unfold_M; simplify_eq/=);
    eexists _, _; unfold logged; simpl;
    (split; [reflexivity|]); simpl;
    match goal with H : _ = (inr _, _) |- _ => rewrite H end; done.
Qed.

(** *** What the methods do to the objects *)

(** The run methods change no object. *)
Lemma perform_heap self q st : heap (perform self q st).2 = heap st.
Proof.
  destruct q; simpl;
    unfold run_forward, resume_forward, run_backward, resume_backward;
    unfold_M; repeat (case_match; unfold_M; simplify_eq/=); done.
Qed.

(** [io_binding] creates no agent and changes none. *)
Lemma io_binding_agents self st l a :
  heap (io_binding self st).2 !! l = Some (ObjTrainingAgent a) →
  heap st !! l = Some (ObjTrainingAgent a).
Proof.
  unfold io_binding, new_IOBinding, alloc. unfold_M.
  intros H. repeat (case_match; unfold_M; simplify_eq/=); try done.
  match goal with
  | H : <[?k := _]> _ !! l = Some _ |- _ =>
      destruct (decide (k = l)) as [<-|Hne];
      [by rewrite lookup_insert_eq in H|by rewrite lookup_insert_ne in H]
  end.
Qed.

(** What [create_training_agent] does, by the outcome of its two
    native constructors. *)
Lemma create_training_agent_outcome self p so pr po st :
  let c1 := CallInferenceSession p so pr po in
  match new_InferenceSession p so pr po (world st) with
  | (inl e, w) =>
      create_training_agent self p so pr po st =
      (inl (Native e), logged st c1 w)
  | (inr s, w) =>
      let c2 := CallTrainingAgent (_sess s) in
      match heap st !! self with
      | Some (ObjTrainingAgent a) =>
          match new_C_TrainingAgent (_sess s) w with
          | (inl e, w') =>
              create_training_agent self p so pr po st =
              (inl (Native e),
               mk_state
                 (<[self := ObjTrainingAgent
                      (mk_TrainingAgent (_training_agent a) (Some s))]>
                    (heap st))
                 w' (trace st ++ [c1; c2]))
          | (inr ag, w') =>
              create_training_agent self p so pr po st =
              (inr (),
               mk_state
                 (<[self := ObjTrainingAgent
                      (mk_TrainingAgent (Some ag) (Some s))]> (heap st))
                 w' (trace st ++ [c1; c2]))
          end
      | _ =>
          create_training_agent self p so pr po st =
          (inl (AttributeError "_inference_session"), logged st c1 w)
      end
  end.
Proof.
  unfold create_training_agent, set_training_agent, set_inference_session,
    logged.
  unfold_M. simpl.
  destruct (new_InferenceSession p so pr po (world st)) as [[e|s] w];
    simpl; [done|].
  destruct (heap st !! self) as [[a|b]|] eqn:Hs; simpl; try done.
  repeat (rewrite lookup_insert_eq; simpl).
  destruct (new_C_TrainingAgent (_sess s) w) as [[e|ag] w']; simpl.
  - by rewrite <-app_assoc.
  - repeat (rewrite lookup_insert_eq; simpl).
    by rewrite insert_insert_eq, <-app_assoc.
Qed.

(** The constructor is [create_training_agent] on a new, blank
    object. *)
Lemma new_TrainingAgent_create p so pr po st :
  let l := fresh (dom (heap st)) in
  let st_b :=
    mk_state (<[l := ObjTrainingAgent (mk_TrainingAgent None None)]> (heap st))
      (world st) (trace st) in
  new_TrainingAgent p so pr po st =
  match create_training_agent l p so pr po st_b with
  | (inl e, st') => (inl e, st')
  | (inr _, st') => (inr l, st')
  end.
Proof.
  unfold new_TrainingAgent, __init__, alloc, set_training_agent,
    set_inference_session.
  unfold mbind, mret, M_bind, M_ret. simpl.
  repeat (rewrite lookup_insert_eq; simpl).
  rewrite !insert_insert_eq.
  by destruct (create_training_agent _ _ _ _ _ _) as [[e|[]] st'].
Qed.
(** The native world after a run method is the one before, or the one
    its native call left. *)
Lemma perform_world self q st :
  world (perform self q st).2 = world st ∨
  ∃ c out, primitive_result c (world st) = Some out ∧
           world (perform self q st).2 = out.2.
Proof.
  destruct q; simpl;
    unfold run_forward, resume_forward, run_backward, resume_backward;
    unfold_M; repeat (case_match; unfold_M; simplify_eq/=); auto;
    right;
    match goal with
    | H : C_run_forward ?ag ?io ?ro _ = _ |- _ =>
        exists (CallRunForward ag io ro); eexists; simpl;
        (split; [reflexivity|]); by rewrite H
    | H : C_resume_forward ?ag ?v ?r _ = _ |- _ =>
        exists (CallResumeForward ag v r); eexists; simpl;
        (split; [reflexivity|]); by rewrite H
    | H : C_run_backward ?ag ?v ?r _ = _ |- _ =>
        exists (CallRunBackward ag v r); eexists; simpl;
        (split; [reflexivity|]); by rewrite H
    end.
Qed.
(** *** Invariants of the interpreter state *)

Lemma keeps_bind {A C} I (m : M A) (k : A → M C) :
  keeps I m → (∀ x, keeps I (k x)) → keeps I (m ≫= k).
Proof.
  intros Hm Hk st HI. specialize (Hm st HI). unfold_M.
  destruct (m st) as [[e|x] st1]; simpl in *; [done|]. by apply Hk.
Qed.

Lemma keeps_mret {A} I (x : A) : keeps I (mret x).
Proof. by intros st HI. Qed.

Lemma keeps_raise {A} I e : keeps I (@raise _ A e).
Proof. by intros st HI. Qed.

Lemma keeps_not_None {A} I attr (x : option A) : keeps I (not_None attr x).
Proof. destruct x; [apply keeps_mret|apply keeps_raise]. Qed.

Lemma keeps_get_training_agent I self : keeps I (get_training_agent self).
Proof. intros st HI. unfold_M. by repeat case_match. Qed.

Lemma keeps_get_inference_session I self :
  keeps I (get_inference_session self).
Proof. intros st HI. unfold_M. by repeat case_match. Qed.

Lemma keeps_get_iobinding I io : keeps I (get_iobinding io).
Proof. intros st HI. unfold_M. by repeat case_match. Qed.

Lemma holds_native {A} l o c (f : World → (Err + A) * World) :
  keeps (holds l o) (native c f).
Proof.
  intros st HI. unfold holds, native in *.
  by destruct (f (world st)) as [[e|x] w].
Qed.

Lemma holds_alloc_bind {A} l o o' (k : nat → M A) :
  (∀ l', l' ≠ l → keeps (holds l o) (k l')) →
  keeps (holds l o) (alloc o' ≫= k).
Proof.
  intros Hk st HI. unfold holds, mbind, M_bind, alloc in *. simpl.
  assert (fresh (dom (heap st)) ≠ l) as Hne.
  { intros <-. eapply (is_fresh (dom (heap st))), elem_of_dom. eauto. }
  apply (Hk _ Hne). unfold holds. simpl. by rewrite lookup_insert_ne.
Qed.

Lemma holds_alloc l o o' : keeps (holds l o) (alloc o').
Proof.
  intros st HI. unfold holds, alloc in *. simpl.
  rewrite lookup_insert_ne; [done|].
  intros <-. eapply (is_fresh (dom (heap st))), elem_of_dom. eauto.
Qed.

Lemma holds_set_training_agent l o self x :
  self ≠ l → keeps (holds l o) (set_training_agent self x).
Proof.
  intros Hne st HI. unfold holds, set_training_agent in *.
  repeat case_match; simpl; try done. by rewrite lookup_insert_ne.
Qed.

Lemma holds_set_inference_session l o self x :
  self ≠ l → keeps (holds l o) (set_inference_session self x).
Proof.
  intros Hne st HI. unfold holds, set_inference_session in *.
  repeat case_match; simpl; try done. by rewrite lookup_insert_ne.
Qed.

Ltac keeps_steps :=
  repeat first
    [ apply keeps_mret | apply keeps_raise | apply keeps_not_None
    | apply keeps_get_training_agent | apply keeps_get_inference_session
    | apply keeps_get_iobinding | apply holds_native | apply holds_alloc
    | apply holds_set_training_agent; assumption
    | apply holds_set_inference_session; assumption
    | apply keeps_bind; [|intros ?] ].

Lemma holds_perform l o self q : keeps (holds l o) (perform self q).
Proof.
  destruct q; simpl;
    unfold run_forward, resume_forward, run_backward, resume_backward;
    keeps_steps.
Qed.

Lemma holds_io_binding l o self : keeps (holds l o) (io_binding self).
Proof. unfold io_binding, new_IOBinding. keeps_steps. Qed.

Lemma holds_create_training_agent l o self p so pr po :
  self ≠ l → keeps (holds l o) (create_training_agent self p so pr po).
Proof. intros Hne. unfold create_training_agent. keeps_steps. Qed.

Lemma holds_new_TrainingAgent l o p so pr po :
  keeps (holds l o) (new_TrainingAgent p so pr po).
Proof.
  unfold new_TrainingAgent. apply holds_alloc_bind. intros l' Hne.
  unfold __init__, create_training_agent. keeps_steps.
Qed.

(** No action but a call of [create_training_agent] on the object
    itself changes an object. *)
Lemma holds_step l o st act :
  recreates l act = false → holds l o st → holds l o (step st act).
Proof.
  destruct act as [p so pr po|self p so pr po|self|self q]; simpl; intros Hr.
  - apply holds_new_TrainingAgent.
  - apply holds_create_training_agent. by apply bool_decide_eq_false in Hr.
  - apply holds_io_binding.
  - apply holds_perform.
Qed.

Lemma holds_steps l o acts : ∀ st,
  forallb (λ act, negb (recreates l act)) acts = true →
  holds l o st → holds l o (steps st acts).
Proof.
  induction acts as [|act acts IH]; intros st Hall Hst; [done|].
  simpl in Hall. apply andb_true_iff in Hall as [Hact Hall].
  apply negb_true_iff in Hact. simpl. apply IH; [done|].
  by apply holds_step.
Qed.

(** *** The native world under the actions *)

Lemma on_world_native {A} P c (f : World → (Err + A) * World) :
  (∀ w, P w → P (f w).2) → keeps (on_world P) (native c f).
Proof.
  intros Hf st HI. unfold on_world, native in *. specialize (Hf _ HI).
  by destruct (f (world st)) as [[e|x] w].
Qed.

Lemma on_world_same {A} P (m : M A) :
  (∀ st, world (m st).2 = world st) → keeps (on_world P) m.
Proof. intros Hm st HI. unfold on_world. by rewrite Hm. Qed.

Lemma on_world_alloc P o : keeps (on_world P) (alloc o).
Proof. by apply on_world_same. Qed.

Lemma on_world_set_training_agent P self x :
  keeps (on_world P) (set_training_agent self x).
Proof.
  apply on_world_same. intros st. unfold set_training_agent.
  by repeat case_match.
Qed.

Lemma on_world_set_inference_session P self x :
  keeps (on_world P) (set_inference_session self x).
Proof.
  apply on_world_same. intros st. unfold set_inference_session.
  by repeat case_match.
Qed.

Lemma on_world_step P st act :
  stable P → on_world P st → on_world P (step st act).
Proof.
  intros [H1 H2 H3 H4 H5 H6].
  destruct act as [p so pr po|self p so pr po|self|self q]; simpl;
    [| | |destruct q; simpl];
    unfold new_TrainingAgent, __init__, create_training_agent, io_binding,
      new_IOBinding, run_forward, resume_forward, run_backward,
      resume_backward;
    repeat first
      [ apply keeps_mret | apply keeps_raise | apply keeps_not_None
      | apply keeps_get_training_agent | apply keeps_get_inference_session
      | apply keeps_get_iobinding | apply on_world_alloc
      | apply on_world_set_training_agent
      | apply on_world_set_inference_session
      | apply on_world_native; intros; auto
      | apply keeps_bind; [|intros ?] ].
Qed.

Lemma on_world_steps P acts : ∀ st,
  stable P → on_world P st → on_world P (steps st acts).
Proof.
  induction acts as [|act acts IH]; intros st HP Hst; [done|].
  simpl. apply IH; [done|]. by apply on_world_step.
Qed.

End AgentFacts.

(** ** Facts about the engine *)

Section EngineFacts.
Import Engine.

Implicit Types (w : machine) (ag : agent) (rid : run_id) (p : point).

Lemma after_stop_from g k p : after (AtYield k) p → after (stop_from g (S k)) p.
Proof.
  unfold stop_from. case_decide; [|done].
  destruct p as [j|]; simpl; [lia|done].
Qed.

Lemma after_next g k : after (stop_from g (S k)) (AtYield k).
Proof. unfold stop_from. case_decide; simpl; [lia|done]. Qed.

Lemma suspended_Some ag d rid w r k :
  suspended ag d rid w = Some (r, k) →
  runs w !! run_no rid = Some r ∧ run_point r = AtYield k ∧
  run_session r = agent_session ag ∧ run_dir r = d ∧
  run_token rid = mk_token (run_no rid) (AtYield k).
Proof.
  unfold suspended. intros H.
  destruct (runs w !! run_no rid) as [r'|] eqn:Hr; simpl in H; [|done].
  destruct (run_point r') as [k'|] eqn:Hp; [|done].
  case_match eqn:Hc; simplify_eq.
  apply andb_true_iff in Hc as [Hc H3]. apply andb_true_iff in Hc as [H1 H2].
  apply bool_decide_eq_true in H1, H2, H3. done.
Qed.

(** A run identifier whose run has moved past the point of the token it
    carries denotes no suspended run. *)
Lemma suspended_past ag d rid w :
  past (run_no rid) (tok_point (run_token rid)) w →
  suspended ag d rid w = None.
Proof.
  intros (r & Hr & Ha).
  destruct (suspended ag d rid w) as [[r' k]|] eqn:Hs; [|done].
  apply suspended_Some in Hs as (Hr' & Hp & _ & _ & Ht).
  simplify_eq. rewrite Hp, Ht in Ha. simpl in Ha. lia.
Qed.

(** Nor does any run identifier of a run that is at its end. *)
Lemma suspended_completed ag d rid w :
  past (run_no rid) AtEnd w → suspended ag d rid w = None.
Proof.
  intros (r & Hr & Ha).
  destruct (suspended ag d rid w) as [[r' k]|] eqn:Hs; [|done].
  apply suspended_Some in Hs as (Hr' & Hp & _). simplify_eq.
  by rewrite Hp in Ha.
Qed.

Lemma engine_resume_invalid d ag vals rid w :
  suspended ag d rid w = None →
  engine_resume d ag vals rid w = (inl InvalidRun, w).
Proof. unfold engine_resume. by intros ->. Qed.

Lemma engine_run_backward_invalid ag vals rid w :
  suspended ag Forward rid w = None →
  engine_run_backward ag vals rid w = (inl InvalidRun, w).
Proof. unfold engine_run_backward. by intros ->. Qed.

(** A resumption that returns leaves the run past the point of the
    token it consumed. *)
Lemma engine_resume_consumes d ag vals rid w res w' :
  engine_resume d ag vals rid w = (inr res, w') →
  past (run_no rid) (tok_point (run_token rid)) w'.
Proof.
  unfold engine_resume. intros H.
  destruct (suspended ag d rid w) as [[r k]|] eqn:Hs; [|done].
  apply suspended_Some in Hs as (Hr & Hp & _ & _ & Ht).
  repeat case_match; simplify_eq. rewrite Ht. simpl.
  eexists. split.
  - apply list_lookup_insert_eq. by eapply lookup_lt_Some.
  - apply after_next.
Qed.

Lemma engine_run_backward_consumes ag vals rid w res w' :
  engine_run_backward ag vals rid w = (inr res, w') →
  past (run_no rid) (tok_point (run_token rid)) w'.
Proof.
  unfold engine_run_backward. intros H.
  destruct (suspended ag Forward rid w) as [[r k]|] eqn:Hs; [|done].
  apply suspended_Some in Hs as (Hr & Hp & _ & _ & Ht).
  repeat case_match; simplify_eq. rewrite Ht. simpl.
  eexists. split.
  - apply lookup_app_l_Some, list_lookup_insert_eq. by eapply lookup_lt_Some.
  - done.
Qed.

(** Runs only move on: no entry point of the engine brings a run back
    to a point it has passed. *)
Lemma past_stable n p : stable (past n p).
Proof.
  split.
  - intros path so pr po w H. simpl. unfold new_session.
    by repeat case_match.
  - intros s w H. simpl. unfold new_agent. by case_match.
  - by intros s w H.
  - intros ag io ro w (r & Hr & Ha). simpl. unfold engine_run_forward.
    case_match; [|by exists r]. exists r. split; [|done].
    by apply lookup_app_l_Some.
  - intros ag vals rid w (r & Hr & Ha). simpl.
    unfold engine_resume_forward, engine_resume.
    destruct (suspended ag Forward rid w) as [[r' k]|] eqn:Hs;
      [|by exists r].
    apply suspended_Some in Hs as (Hr' & Hp & _).
    repeat case_match; try by exists r. simpl.
    destruct (decide (run_no rid = n)) as [Heq|Hne].
    + rewrite Heq in *. simplify_eq. eexists. split.
      * apply list_lookup_insert_eq. by eapply lookup_lt_Some.
      * simpl. apply after_stop_from. by rewrite <-Hp.
    + exists r. split; [|done]. simpl. by rewrite list_lookup_insert_ne.
  - intros ag vals rid w (r & Hr & Ha). simpl.
    unfold engine_run_backward.
    destruct (suspended ag Forward rid w) as [[r' k]|] eqn:Hs;
      [|by exists r].
    apply suspended_Some in Hs as (Hr' & Hp & _).
    repeat case_match; try by exists r. simpl.
    destruct (decide (run_no rid = n)) as [Heq|Hne].
    + rewrite Heq in *. eexists. split.
      * apply lookup_app_l_Some, list_lookup_insert_eq.
        by eapply lookup_lt_Some.
      * done.
    + exists r. split; [|done].
      apply lookup_app_l_Some. by rewrite list_lookup_insert_ne.
Qed.

(** *** Agents and their sessions *)

Lemma primitive_result_sessions c w out :
  primitive_result (B:=backend) c w = Some out → sessions out.2 = sessions w.
Proof.
  destruct c; simpl; intros H; simplify_eq; simpl.
  - unfold engine_run_forward. by repeat case_match.
  - unfold engine_resume_forward, engine_resume. by repeat case_match.
  - unfold engine_run_backward. by repeat case_match.
Qed.

Lemma perform_sessions self q (st : state) :
  sessions (world (perform self q st).2) = sessions (world st).
Proof.
  destruct (perform_world self q st) as [->|(c & out & Hc & ->)]; [done|].
  by eapply primitive_result_sessions.
Qed.

Lemma io_binding_world self (st : state) :
  world (io_binding self st).2 = world st.
Proof.
  unfold io_binding, new_IOBinding, alloc. unfold_M. simpl.
  unfold new_binding. by repeat (case_match; unfold_M; simplify_eq/=).
Qed.

Lemma new_session_raises path so pr po w e w' :
  new_session path so pr po w = (inl e, w') → w' = w.
Proof. unfold new_session. intros H. by repeat case_match; simplify_eq. Qed.

Lemma new_session_returns path so pr po w s w' :
  new_session path so pr po w = (inr s, w') →
  sess_handle s = length (sessions w) ∧
  ∃ m, sessions w' = sessions w ++ [m].
Proof.
  unfold new_session. intros H. repeat case_match; simplify_eq; simpl; eauto.
Qed.

Lemma new_agent_loaded h w :
  h < length (sessions w) → new_agent h w = (inr (mk_agent h), w).
Proof.
  intros Hh. unfold new_agent.
  destruct (sessions w !! h) eqn:Hl; [done|].
  apply lookup_ge_None in Hl. lia.
Qed.

Lemma create_training_agent_grows self path so pr po (st : state) :
  grows st (create_training_agent self path so pr po st).2 self.
Proof.
  pose proof (create_training_agent_outcome (B:=backend) self path so pr po st)
    as H.
  simpl in H.
  destruct (new_session path so pr po (world st)) as [[e|s] w] eqn:Hn.
  { rewrite H. apply new_session_raises in Hn as ->.
    split; [done|]. intros l a' ag' Hag. left. by exists a'. }
  apply new_session_returns in Hn as (Hh & m & Hw).
  assert (length (sessions (world st)) < length (sessions w)) as Hlt.
  { rewrite Hw, length_app. simpl. lia. }
  destruct (heap st !! self) as [[a|b]|] eqn:Hs.
  - rewrite new_agent_loaded in H by (rewrite Hh; exact Hlt).
    rewrite H. split; simpl; [lia|].
    intros l a' ag' [Hl Ha]. simpl in Hl.
    destruct (decide (self = l)) as [<-|Hne].
    + right. rewrite lookup_insert_eq in Hl. by simplify_eq/=.
    + left. rewrite lookup_insert_ne in Hl; [|done]. by exists a'.
  - rewrite H. split; simpl; [lia|].
    intros l a' ag' Hag. left. by exists a'.
  - rewrite H. split; simpl; [lia|].
    intros l a' ag' Hag. left. by exists a'.
Qed.

Lemma new_TrainingAgent_grows path so pr po (st : state) :
  grows st (new_TrainingAgent path so pr po st).2 (fresh (dom (heap st))).
Proof.
  rewrite (new_TrainingAgent_create (B:=backend)). simpl.
  set (l := fresh (dom (heap st))).
  set (st_b := mk_state _ _ _).
  pose proof (create_training_agent_grows l path so pr po st_b) as [Hle Hag].
  assert ((match create_training_agent l path so pr po st_b with
           | (inl e, st') => (inl e, st')
           | (inr _, st') => (inr l, st')
           end).2 = (create_training_agent l path so pr po st_b).2) as ->.
  { by destruct (create_training_agent _ _ _ _ _ _) as [[e|[]] st']. }
  split; [exact Hle|].
  intros l' a' ag' H. destruct (Hag l' a' ag' H) as [(a & Hl & Ha)|Hr].
  - left. exists a. split; [|done]. simpl in Hl.
    destruct (decide (l = l')) as [<-|Hne].
    + rewrite lookup_insert_eq in Hl. by simplify_eq/=.
    + by rewrite lookup_insert_ne in Hl.
  - by right.
Qed.

Lemma step_grows (st : state) act : ∃ l0, grows st (step st act) l0.
Proof.
  destruct act as [p so pr po|self path so pr po|self|self q]; unfold step.
  - eexists. apply new_TrainingAgent_grows.
  - eexists. apply create_training_agent_grows.
  - exists 0. split; [by rewrite io_binding_world|].
    intros l a' ag' [Hl Ha]. left. exists a'. split; [|done].
    by eapply io_binding_agents.
  - exists 0. split; [by rewrite perform_sessions|].
    intros l a' ag' [Hl Ha]. left. exists a'. split; [|done].
    by rewrite perform_heap in Hl.
Qed.

Lemma own_sessions_step (st : state) act :
  own_sessions st → own_sessions (step st act).
Proof.
  intros [Hb Hi]. destruct (step_grows st act) as (l0 & Hle & Hg).
  split.
  - intros l a' ag' Hag.
    destruct (Hg _ _ _ Hag) as [(a & Ha)|(_ & -> & Hlt)]; [|done].
    specialize (Hb _ _ _ Ha). lia.
  - intros l1 a1 ag1 l2 a2 ag2 H1 H2 Heq.
    destruct (Hg _ _ _ H1) as [(a1' & Ha1)|(-> & Hs1 & _)];
      destruct (Hg _ _ _ H2) as [(a2' & Ha2)|(-> & Hs2 & _)].
    + by eapply Hi.
    + specialize (Hb _ _ _ Ha1). lia.
    + specialize (Hb _ _ _ Ha2). lia.
    + done.
Qed.

Lemma own_sessions_steps acts : ∀ st : state,
  own_sessions st → own_sessions (steps st acts).
Proof.
  induction acts as [|act acts IH]; intros st H; [done|].
  simpl. apply IH. by apply own_sessions_step.
Qed.

Lemma own_sessions_empty (st : state) : heap st = ∅ → own_sessions st.
Proof.
  intros He. split.
  - intros l a ag [Hl _]. by rewrite He in Hl.
  - intros l1 a1 ag1 l2 a2 ag2 [Hl _]. by rewrite He in Hl.
Qed.
End EngineFacts.

(** ** The claims that hold for any native layer *)

Section Claims.
Context {B : Backend}.

Implicit Types (st : state) (self : nat) (a : TrainingAgent).

(** The wrapping keeps count and order, for any native layer: the
    values a run method returns are the values its native call
    returned, each wrapped, none added, none dropped, in the same
    order; so whatever slots the native values fill, one each and in
    order, the returned values fill the same slots. *)
Lemma wrapped_values_keep_order {Slot : Type}
    (fills : C_OrtValue → Slot → Prop) self q st vals rid tok st' :
  perform self q st = (inr (vals, rid, tok), st') →
  ∃ c raw,
    trace st' = trace st ++ [c] ∧
    primitive_result c (world st) = Some (inr (raw, rid, tok), world st') ∧
    vals = mk_OrtValue <$> raw ∧
    length vals = length raw ∧
    (∀ i, vals !! i = mk_OrtValue <$> raw !! i) ∧
    ∀ slots, Forall2 fills raw slots →
      length vals = length slots ∧
      Forall2 (λ x s, fills (_ortvalue x) s) vals slots.
Proof.
  intros H. apply perform_returns in H as (c & [[raw rid'] tok'] & Hst & Hc & Hw).
  unfold wrap in Hw. simplify_eq.
  exists c, raw. split; [by rewrite Hst|]. split; [done|].
  split; [done|]. split; [by rewrite length_fmap|].
  split; [intros i; by rewrite list_lookup_fmap|].
  intros slots Hf. split.
  - rewrite length_fmap. by eapply Forall2_length.
  - by apply Forall2_fmap_l.
Qed.

(** C3. On a constructed agent each of the four methods makes its
    native call and returns, in the same call, the triple of the values,
    the run identifier and the token of that native call, the last two
    as the native call returned them: [run_forward] from the native
    [run_forward], [resume_forward] from the native [resume_forward],
    [run_backward] and [resume_backward] from the native
    [run_backward]. *)
Theorem run_id_and_token_passed_through st self a ag :
  agent_at st self a ag →
  (∀ io b ro raw rid tok w,
     heap st !! io = Some (ObjIOBinding b) →
     C_run_forward ag (_iobinding b) ro (world st) = (inr (raw, rid, tok), w) →
     run_forward self io ro st =
     (inr (mk_OrtValue <$> raw, rid, tok),
      logged st (CallRunForward ag (_iobinding b) ro) w)) ∧
  (∀ vals r raw rid tok w,
     C_resume_forward ag vals r (world st) = (inr (raw, rid, tok), w) →
     resume_forward self vals r st =
     (inr (mk_OrtValue <$> raw, rid, tok),
      logged st (CallResumeForward ag vals r) w)) ∧
  (∀ vals r raw rid tok w,
     C_run_backward ag vals r (world st) = (inr (raw, rid, tok), w) →
     run_backward self vals r st =
     (inr (mk_OrtValue <$> raw, rid, tok),
      logged st (CallRunBackward ag vals r) w)) ∧
  (∀ vals r raw rid tok w,
     C_run_backward ag vals r (world st) = (inr (raw, rid, tok), w) →
     resume_backward self vals r st =
     (inr (mk_OrtValue <$> raw, rid, tok),
      logged st (CallRunBackward ag vals r) w)).
Proof.
  intros Hag. repeat split.
  - intros io b ro raw rid tok w Hb Hc.
    rewrite (run_forward_eq st self a ag io b ro Hag Hb).
    unfold deliver. by rewrite Hc.
  - intros vals r raw rid tok w Hc.
    rewrite (resume_forward_eq st self a ag vals r Hag).
    unfold deliver. by rewrite Hc.
  - intros vals r raw rid tok w Hc.
    rewrite (run_backward_eq st self a ag vals r Hag).
    unfold deliver. by rewrite Hc.
  - intros vals r raw rid tok w Hc.
    rewrite resume_backward_is_run_backward.
    rewrite (run_backward_eq st self a ag vals r Hag).
    unfold deliver. by rewrite Hc.
Qed.

(** C9. [resume_forward], [run_backward] and [resume_backward] hand the
    caller's list of native values and the run identifier to the native
    call as they are: the call logged carries that very list.  The
    outcome is that of the native call on that list: its error, or its
    run identifier and token with each returned value, and only those,
    wrapped as an [OrtValue]. *)
Theorem inputs_passed_as_given st self a ag vals rid :
  agent_at st self a ag →
  (resume_forward self vals rid st =
     match C_resume_forward ag vals rid (world st) with
     | (inl e, w) =>
         (inl (Native e), logged st (CallResumeForward ag vals rid) w)
     | (inr (raw, rid', tok), w) =>
         (inr (mk_OrtValue <$> raw, rid', tok),
          logged st (CallResumeForward ag vals rid) w)
     end ∧
   trace (resume_forward self vals rid st).2 =
     trace st ++ [CallResumeForward ag vals rid]) ∧
  (run_backward self vals rid st =
     match C_run_backward ag vals rid (world st) with
     | (inl e, w) =>
         (inl (Native e), logged st (CallRunBackward ag vals rid) w)
     | (inr (raw, rid', tok), w) =>
         (inr (mk_OrtValue <$> raw, rid', tok),
          logged st (CallRunBackward ag vals rid) w)
     end ∧
   trace (run_backward self vals rid st).2 =
     trace st ++ [CallRunBackward ag vals rid]) ∧
  (resume_backward self vals rid st =
     match C_run_backward ag vals rid (world st) with
     | (inl e, w) =>
         (inl (Native e), logged st (CallRunBackward ag vals rid) w)
     | (inr (raw, rid', tok), w) =>
         (inr (mk_OrtValue <$> raw, rid', tok),
          logged st (CallRunBackward ag vals rid) w)
     end ∧
   trace (resume_backward self vals rid st).2 =
     trace st ++ [CallRunBackward ag vals rid]).
Proof.
  intros Hag.
  rewrite (resume_backward_eq st self a ag vals rid Hag).
  rewrite (resume_forward_eq st self a ag vals rid Hag).
  rewrite (run_backward_eq st self a ag vals rid Hag).
  unfold deliver.
  destruct (C_resume_forward _ _ _ _) as [[e1|[[raw1 rid1] tok1]] w1];
    destruct (C_run_backward _ _ _ _) as [[e2|[[raw2 rid2] tok2]] w2];
    simpl; done.
Qed.

(** What the constructor does, by the outcome of its two native
    constructors. *)
Lemma new_TrainingAgent_outcome p so pr po st :
  let c1 := CallInferenceSession p so pr po in
  match new_InferenceSession p so pr po (world st) with
  | (inl e, w) =>
      ∃ st', new_TrainingAgent p so pr po st = (inl (Native e), st') ∧
             world st' = w ∧ trace st' = trace st ++ [c1]
  | (inr s, w) =>
      let c2 := CallTrainingAgent (_sess s) in
      match new_C_TrainingAgent (_sess s) w with
      | (inl e, w') =>
          ∃ st', new_TrainingAgent p so pr po st = (inl (Native e), st') ∧
                 world st' = w' ∧ trace st' = trace st ++ [c1; c2]
      | (inr ag, w') =>
          ∃ self st',
            new_TrainingAgent p so pr po st = (inr self, st') ∧
            heap st !! self = None ∧
            heap st' !! self =
              Some (ObjTrainingAgent (mk_TrainingAgent (Some ag) (Some s))) ∧
            world st' = w' ∧ trace st' = trace st ++ [c1; c2]
      end
  end.
Proof.
  unfold new_TrainingAgent, __init__, create_training_agent, alloc,
    set_training_agent, set_inference_session.
  unfold_M. simpl.
  repeat (rewrite lookup_insert_eq; simpl).
  destruct (new_InferenceSession p so pr po (world st)) as [[e|s] w]; simpl.
  { eexists. split; [reflexivity|]. done. }
  repeat (rewrite lookup_insert_eq; simpl).
  destruct (new_C_TrainingAgent (_sess s) w) as [[e|ag] w']; simpl.
  { eexists. split; [reflexivity|]. simpl. by rewrite <-app_assoc. }
  repeat (rewrite lookup_insert_eq; simpl).
  eexists _, _. split; [reflexivity|]. simpl.
  rewrite lookup_insert_eq, <-app_assoc. repeat split; try done.
  apply not_elem_of_dom, is_fresh.
Qed.

(** C6. If the constructor of the underlying session raises (the model
    does not load, a provider is not resolved, or anything else), the
    constructor of the agent raises that same error and returns no
    object; and whenever it does return an object, that object is
    complete: both its session and its native agent are set. *)
Theorem construction_is_all_or_nothing p so pr po st :
  (∀ e w, new_InferenceSession p so pr po (world st) = (inl e, w) →
     (new_TrainingAgent p so pr po st).1 = inl (Native e)) ∧
  (∀ self st', new_TrainingAgent p so pr po st = (inr self, st') →
     ∃ s ag, heap st' !! self =
       Some (ObjTrainingAgent (mk_TrainingAgent (Some ag) (Some s)))).
Proof.
  pose proof (new_TrainingAgent_outcome p so pr po st) as H. simpl in H.
  split.
  - intros e w He. rewrite He in H. destruct H as (st' & -> & _). done.
  - intros self st' Hr.
    destruct (new_InferenceSession p so pr po (world st)) as [[e|s] w].
    { destruct H as (? & H & _). by rewrite H in Hr. }
    destruct (new_C_TrainingAgent (_sess s) w) as [[e|ag] w'].
    { destruct H as (? & H & _). by rewrite H in Hr. }
    destruct H as (self' & st1 & H & _ & Hl & _).
    rewrite H in Hr. simplify_eq. eauto.
Qed.

(** C10. On a constructed agent, a call of [io_binding] whose native
    binding constructor returns gives a new object, at an address no
    object had, which is an [IOBinding] built over the [_sess] of the
    agent's own [_inference_session]; the agent and every other object
    are as they were. *)
Theorem io_binding_is_fresh_and_bound st self a s h w :
  heap st !! self = Some (ObjTrainingAgent a) →
  _inference_session a = Some s →
  new_C_SessionIOBinding (_sess s) (world st) = (inr h, w) →
  ∃ b st',
    io_binding self st = (inr b, st') ∧
    heap st !! b = None ∧
    heap st' !! b = Some (ObjIOBinding (mk_IOBinding h)) ∧
    heap st' !! self = Some (ObjTrainingAgent a) ∧
    (∀ l o, heap st !! l = Some o → heap st' !! l = Some o) ∧
    world st' = w ∧
    trace st' = trace st ++ [CallSessionIOBinding (_sess s)].
Proof.
  intros Hs Ha Hn. unfold io_binding, new_IOBinding, alloc. unfold_M.
  rewrite Hs. simpl. rewrite Ha. simpl. rewrite Hn. simpl.
  eexists _, _. split; [reflexivity|]. simpl.
  assert (heap st !! fresh (dom (heap st)) = None) as Hf
    by apply not_elem_of_dom, is_fresh.
  assert (∀ l o, heap st !! l = Some o →
            <[fresh (dom (heap st)) := ObjIOBinding (mk_IOBinding h)]>
              (heap st) !! l = Some o) as Hk.
  { intros l o Hl. rewrite lookup_insert_ne; [done|]. congruence. }
  rewrite lookup_insert_eq. repeat split; auto.
Qed.

(** A run method returns only on a constructed agent. *)
Lemma perform_agent self q st res st' :
  perform self q st = (inr res, st') → ∃ a ag, agent_at st self a ag.
Proof.
  unfold agent_at.
  destruct q; simpl;
    unfold run_forward, resume_forward, run_backward, resume_backward;
    unfold_M; intros H;
    repeat (case_match; unfold_M; simplify_eq/=); eauto.
Qed.

(** C8, as the code has it. A constructed agent holds the session its
    constructor built and the native agent built over the [_sess] of
    that session, both built once, by the constructor; and no sequence
    of constructions of other agents and of calls of [io_binding],
    [run_forward], [resume_forward], [run_backward], [resume_backward]
    on any object, or of [create_training_agent] on another object,
    changes either attribute.  (A call of [create_training_agent] on the
    agent itself does.) *)
Theorem association_kept_by_operations p so pr po st self st1 :
  new_TrainingAgent p so pr po st = (inr self, st1) →
  ∃ s ag w,
    new_InferenceSession p so pr po (world st) = (inr s, w) ∧
    new_C_TrainingAgent (_sess s) w = (inr ag, world st1) ∧
    trace st1 =
      trace st ++ [CallInferenceSession p so pr po;
                   CallTrainingAgent (_sess s)] ∧
    ∀ acts,
      forallb (λ act, negb (recreates self act)) acts = true →
      heap (steps st1 acts) !! self =
        Some (ObjTrainingAgent (mk_TrainingAgent (Some ag) (Some s))).
Proof.
  intros Hr.
  pose proof (new_TrainingAgent_outcome p so pr po st) as H. simpl in H.
  destruct (new_InferenceSession p so pr po (world st)) as [[e|s] w] eqn:H1.
  { destruct H as (? & H & _). by rewrite H in Hr. }
  destruct (new_C_TrainingAgent (_sess s) w) as [[e|ag] w'] eqn:H2.
  { destruct H as (? & H & _). by rewrite H in Hr. }
  destruct H as (self' & st' & H & _ & Hl & Hw & Ht).
  rewrite H in Hr. simplify_eq.
  exists s, ag, w. split; [done|]. split; [done|]. split; [done|].
  intros acts Hacts. by apply holds_steps.
Qed.

(** Two calls of [io_binding] never return the same object. *)
Lemma io_binding_twice st self b1 st1 b2 st2 :
  io_binding self st = (inr b1, st1) →
  io_binding self st1 = (inr b2, st2) →
  b1 ≠ b2.
Proof.
  unfold io_binding, new_IOBinding, alloc. unfold_M. intros H1 H2.
  repeat (case_match; unfold_M; simplify_eq/=).
  intros Heq.
  match goal with
  | H : fresh (dom ?h) = fresh (dom (<[_ := ?o]> ?h)) |- _ =>
      apply (is_fresh (dom (<[fresh (dom h) := o]> h)));
      rewrite <-H; apply elem_of_dom; rewrite lookup_insert_eq; eauto
  end.
Qed.

End Claims.

(** ** The claims about the engine behind the agent *)

Section EngineClaims.
Import Engine.

Implicit Types (st : state) (self : nat) (a : TrainingAgent)
  (ag : agent) (rid : run_id) (q : request).

(** A request to continue from a run identifier that denotes no
    suspended forward run of the agent's session is refused, and the
    engine is left as it was. *)
Lemma perform_invalid st self a ag q rid :
  agent_at st self a ag →
  resumes q = Some rid →
  suspended ag Forward rid (world st) = None →
  (perform self q st).1 = inl (Native InvalidRun) ∧
  world (perform self q st).2 = world st.
Proof.
  intros Hag Hq Hs.
  destruct q as [io ro|vals r|vals r|vals r]; simplify_eq/=.
  - rewrite (resume_forward_eq (B:=backend) st self a ag vals rid Hag). simpl.
    unfold engine_resume_forward.
    by rewrite (engine_resume_invalid _ _ _ _ _ Hs).
  - rewrite (run_backward_eq (B:=backend) st self a ag vals rid Hag). simpl.
    by rewrite (engine_run_backward_invalid _ _ _ _ Hs).
  - rewrite (resume_backward_eq (B:=backend) st self a ag vals rid Hag). simpl.
    by rewrite (engine_run_backward_invalid _ _ _ _ Hs).
Qed.

(** A request that continues from a run identifier and returns has
    consumed the token the identifier carries. *)
Lemma perform_consumes st self q rid res st' :
  resumes q = Some rid →
  perform self q st = (inr res, st') →
  past (run_no rid) (tok_point (run_token rid)) (world st').
Proof.
  intros Hq Hr. destruct (perform_agent _ _ _ _ _ Hr) as (a & ag & Hag).
  destruct q as [io ro|vals r|vals r|vals r]; simplify_eq/=.
  - rewrite (resume_forward_eq (B:=backend) st self a ag vals rid Hag) in Hr.
    unfold deliver in Hr. simpl in Hr.
    destruct (engine_resume_forward ag vals rid (world st))
      as [[e|raw] w] eqn:He; simplify_eq/=.
    by eapply engine_resume_consumes.
  - rewrite (run_backward_eq (B:=backend) st self a ag vals rid Hag) in Hr.
    unfold deliver in Hr. simpl in Hr.
    destruct (engine_run_backward ag vals rid (world st))
      as [[e|raw] w] eqn:He; simplify_eq/=.
    by eapply engine_run_backward_consumes.
  - rewrite (resume_backward_eq (B:=backend) st self a ag vals rid Hag) in Hr.
    unfold deliver in Hr. simpl in Hr.
    destruct (engine_run_backward ag vals rid (world st))
      as [[e|raw] w] eqn:He; simplify_eq/=.
    by eapply engine_run_backward_consumes.
Qed.

Lemma suspended_foreign_token ag d rid w :
  tok_run (run_token rid) ≠ run_no rid → suspended ag d rid w = None.
Proof.
  intros Hne. destruct (suspended ag d rid w) as [[r k]|] eqn:Hs; [|done].
  apply suspended_Some in Hs as (_ & _ & _ & _ & Ht).
  rewrite Ht in Hne. done.
Qed.

Lemma suspended_foreign_session ag d rid w r :
  runs w !! run_no rid = Some r →
  run_session r ≠ agent_session ag →
  suspended ag d rid w = None.
Proof.
  intros Hr Hne. destruct (suspended ag d rid w) as [[r' k]|] eqn:Hs; [|done].
  apply suspended_Some in Hs as (Hr' & _ & Hs & _). congruence.
Qed.

Lemma produce_follows m slots inputs :
  val_slot <$> produce m slots inputs = slots.
Proof.
  unfold produce. rewrite <-list_fmap_compose.
  induction slots as [|x slots IH]; [done|]. simpl. by f_equal.
Qed.

(** Every run call of the engine that returns leaves the run it names
    registered at the stopping point it reached, names that point in
    the token, and returns one value per declared output slot of that
    point, in the order of the slots. *)
Lemma primitive_follows_slots c w raw rid tok w' :
  primitive_result (B:=backend) c w = Some (inr (raw, rid, tok), w') →
  ∃ r m,
    runs w' !! run_no rid = Some r ∧
    sessions w' !! run_session r = Some m ∧
    run_token rid = tok ∧
    tok = mk_token (run_no rid) (run_point r) ∧
    val_slot <$> raw = slots_at (subgraph_of m (run_dir r)) (run_point r).
Proof.
  destruct c as [| | |ag io ro|ag vals rid0|ag vals rid0]; simpl;
    intros H; simplify_eq.
  - unfold engine_run_forward in H.
    destruct (sessions w !! agent_session ag) as [m|] eqn:Hm;
      simplify_eq/=.
    eexists _, m. split; [by apply list_lookup_middle|]. simpl.
    split; [done|]. split; [done|]. split; [done|]. apply produce_follows.
  - unfold engine_resume_forward, engine_resume in H.
    destruct (suspended ag Forward rid0 w) as [[r k]|] eqn:Hs;
      [|done].
    apply suspended_Some in Hs as (Hr & Hp & Hsess & Hd & Ht).
    destruct (sessions w !! agent_session ag) as [m|] eqn:Hm; [|done].
    case_decide; simplify_eq/=.
    eexists _, m. split.
    { apply list_lookup_insert_eq. by eapply lookup_lt_Some. }
    simpl. split; [by rewrite Hsess|]. split; [done|]. split; [done|].
    apply produce_follows.
  - unfold engine_run_backward in H.
    destruct (suspended ag Forward rid0 w) as [[r k]|] eqn:Hs;
      [|done].
    destruct (sessions w !! agent_session ag) as [m|] eqn:Hm; [|done].
    case_decide; simplify_eq/=.
    eexists _, m. split.
    { apply list_lookup_middle. by rewrite length_insert. }
    simpl. split; [done|]. split; [done|]. split; [done|].
    apply produce_follows.
Qed.

(** C2. With the engine of the design document behind the agent:
    whenever one of the four run methods returns, the run it names is
    registered at the stopping point it reached, the token names that
    point, and the values returned are exactly one per declared output
    slot of that point, in the order of the slots; they are the values
    of the native call, each wrapped, none added, none dropped, none
    moved. *)
Theorem returned_values_follow_slots st self q vals rid tok st' :
  perform self q st = (inr (vals, rid, tok), st') →
  ∃ r m,
    runs (world st') !! run_no rid = Some r ∧
    sessions (world st') !! run_session r = Some m ∧
    run_token rid = tok ∧
    tok = mk_token (run_no rid) (run_point r) ∧
    (λ x, val_slot (_ortvalue x)) <$> vals =
      slots_at (subgraph_of m (run_dir r)) (run_point r) ∧
    length vals =
      length (slots_at (subgraph_of m (run_dir r)) (run_point r)) ∧
    ∃ c raw,
      trace st' = trace st ++ [c] ∧
      primitive_result c (world st) = Some (inr (raw, rid, tok), world st') ∧
      vals = mk_OrtValue <$> raw ∧
      length vals = length raw ∧
      (∀ i, vals !! i = mk_OrtValue <$> raw !! i).
Proof.
  intros H.
  destruct (wrapped_values_keep_order (B:=backend) (λ x s, val_slot x = s)
              self q st vals rid tok st' H)
    as (c & raw & Ht & Hc & Hv & Hl & Hi & _).
  destruct (primitive_follows_slots _ _ _ _ _ _ Hc)
    as (r & m & Hr & Hm & Hrt & Htok & Hs).
  exists r, m. split; [done|]. split; [done|]. split; [done|].
  split; [done|].
  assert ((λ x, val_slot (_ortvalue x)) <$> vals =
          slots_at (subgraph_of m (run_dir r)) (run_point r)) as Hsl.
  { rewrite Hv, <-list_fmap_compose. exact Hs. }
  split; [exact Hsl|]. split; [by rewrite <-Hsl, length_fmap|].
  by exists c, raw.
Qed.

(** A suspended forward run is resumed when one value per yielded slot
    is supplied. *)
Lemma resume_forward_returns st self a ag vals rid r k m :
  agent_at st self a ag →
  suspended ag Forward rid (world st) = Some (r, k) →
  sessions (world st) !! agent_session ag = Some m →
  length vals = length (slots_at (forward m) (AtYield k)) →
  ∃ res st1, resume_forward self vals rid st = (inr res, st1).
Proof.
  intros Hag Hs Hm Hl.
  rewrite (resume_forward_eq (B:=backend) st self a ag vals rid Hag).
  unfold deliver. simpl. unfold engine_resume_forward, engine_resume.
  rewrite Hs, Hm. simpl. rewrite decide_True by done. simpl. eauto.
Qed.

(** Single use, as far as it holds with the engine of the design
    document behind the agent: the run identifier of a suspended
    forward run, which carries the run's current token, is accepted by
    [resume_forward]; once a call that continues from a run identifier
    ([resume_forward], [run_backward] or [resume_backward]) has
    returned, every later call that continues from the same identifier,
    on any agent and after any further actions, fails with the
    invalid-run error; a run identifier that carries the token of
    another run is refused; so is the identifier of a run of another
    session than the agent's; and since in a program that starts
    without objects no two agents share a session, so is the identifier
    of a run of any other agent.  A refused call leaves the engine as
    it was. *)
Lemma token_authorizes_one_resumption :
  (∀ st self a ag vals rid r k m,
     agent_at st self a ag →
     suspended ag Forward rid (world st) = Some (r, k) →
     sessions (world st) !! agent_session ag = Some m →
     length vals = length (slots_at (forward m) (AtYield k)) →
     ∃ res st1, resume_forward self vals rid st = (inr res, st1)) ∧
  (∀ st self q rid res st1,
     resumes q = Some rid →
     perform self q st = (inr res, st1) →
     ∀ acts self' a' ag' q',
       resumes q' = Some rid →
       agent_at (steps st1 acts) self' a' ag' →
       (perform self' q' (steps st1 acts)).1 = inl (Native InvalidRun)) ∧
  (∀ st self a ag q rid,
     agent_at st self a ag →
     resumes q = Some rid →
     tok_run (run_token rid) ≠ run_no rid →
     (perform self q st).1 = inl (Native InvalidRun) ∧
     world (perform self q st).2 = world st) ∧
  (∀ st self a ag q rid r,
     agent_at st self a ag →
     resumes q = Some rid →
     runs (world st) !! run_no rid = Some r →
     run_session r ≠ agent_session ag →
     (perform self q st).1 = inl (Native InvalidRun) ∧
     world (perform self q st).2 = world st) ∧
  (∀ st0 acts self1 a1 ag1 self2 a2 ag2 q rid r,
     heap st0 = ∅ →
     agent_at (steps st0 acts) self1 a1 ag1 →
     agent_at (steps st0 acts) self2 a2 ag2 →
     self1 ≠ self2 →
     resumes q = Some rid →
     runs (world (steps st0 acts)) !! run_no rid = Some r →
     run_session r = agent_session ag1 →
     (perform self2 q (steps st0 acts)).1 = inl (Native InvalidRun) ∧
     world (perform self2 q (steps st0 acts)).2 = world (steps st0 acts)).
Proof.
  split; [|split; [|split; [|split]]].
  - apply resume_forward_returns.
  - intros st self q rid res st1 Hq Hr acts self' a' ag' q' Hq' Hag.
    eapply perform_invalid; [done..|].
    apply suspended_past.
    apply (on_world_steps (B:=backend) (past _ _) acts st1
             (past_stable _ _)).
    exact (perform_consumes _ _ _ _ _ _ Hq Hr).
  - intros st self a ag q rid Hag Hq Hne.
    eapply perform_invalid; [done..|]. by apply suspended_foreign_token.
  - intros st self a ag q rid r Hag Hq Hr Hne.
    eapply perform_invalid; [done..|]. by eapply suspended_foreign_session.
  - intros st0 acts self1 a1 ag1 self2 a2 ag2 q rid r He H1 H2 Hne Hq Hr Hs.
    eapply perform_invalid; [done..|].
    eapply suspended_foreign_session; [done|].
    rewrite Hs. intros Heq. apply Hne.
    destruct (own_sessions_steps acts st0 (own_sessions_empty st0 He))
      as [_ Hinj].
    by eapply Hinj.
Qed.

(** No method of the agent continues a backward run: each of the three
    asks the engine for a suspended forward run. *)
Lemma backward_run_is_refused st self a ag q rid r :
  agent_at st self a ag →
  resumes q = Some rid →
  runs (world st) !! run_no rid = Some r →
  run_dir r = Backward →
  (perform self q st).1 = inl (Native InvalidRun) ∧
  world (perform self q st).2 = world st.
Proof.
  intros Hag Hq Hr Hd. eapply perform_invalid; [done..|].
  destruct (suspended ag Forward rid (world st)) as [[r' k]|] eqn:Hs;
    [|done].
  apply suspended_Some in Hs as (Hr' & _ & _ & Hd' & _). congruence.
Qed.

Lemma stop_from_no_yield g : yields g = [] → stop_from g 0 = AtEnd.
Proof. unfold stop_from. intros ->. done. Qed.

Lemma produce_slots m slots inputs :
  val_slot <$> produce m slots inputs = slots.
Proof.
  unfold produce. rewrite <-list_fmap_compose.
  induction slots as [|s slots IH]; [done|]. simpl. by f_equal.
Qed.

(** C5. With the engine of the design document behind the agent: on a
    model whose forward subgraph has no yield operator, [run_forward]
    returns one value for each output of the graph end, in order, with
    a token that denotes the end; and from then on, after any further
    actions and on any agent, every call that continues from a run
    identifier of that run, or from one carrying that token, fails with
    the invalid-run error. *)
Theorem run_without_yield_is_terminal st self a ag io b ro m :
  agent_at st self a ag →
  heap st !! io = Some (ObjIOBinding b) →
  sessions (world st) !! agent_session ag = Some m →
  yields (forward m) = [] →
  ∃ vals rid tok st1,
    run_forward self io ro st = (inr (vals, rid, tok), st1) ∧
    _ortvalue <$> vals =
      produce m (outputs (forward m)) (io_inputs (_iobinding b)) ∧
    (λ x, val_slot (_ortvalue x)) <$> vals = outputs (forward m) ∧
    run_token rid = tok ∧
    tok_point tok = AtEnd ∧
    ∀ acts self' a' ag' q rid',
      agent_at (steps st1 acts) self' a' ag' →
      resumes q = Some rid' →
      run_no rid' = run_no rid ∨ run_token rid' = tok →
      (perform self' q (steps st1 acts)).1 = inl (Native InvalidRun).
Proof.
  intros Hag Hb Hm Hy.
  rewrite (run_forward_eq (B:=backend) st self a ag io b ro Hag Hb).
  unfold deliver. simpl. unfold engine_run_forward.
  rewrite Hm, (stop_from_no_yield _ Hy). simpl.
  eexists _, _, _, _. split; [reflexivity|].
  split. { rewrite <-list_fmap_compose. apply list_fmap_id. }
  split.
  { rewrite <-list_fmap_compose.
    change (val_slot <$>
              produce m (outputs (forward m)) (io_inputs (_iobinding b)) =
            outputs (forward m)).
    apply produce_slots. }
  split; [done|]. split; [done|].
  intros acts self' a' ag' q rid' Hag' Hq Hrid.
  eapply perform_invalid; [done..|].
  destruct Hrid as [Hn|Ht].
  - apply suspended_completed.
    apply (on_world_steps (B:=backend) (past _ _) acts _ (past_stable _ _)).
    unfold on_world. simpl. rewrite Hn. simpl.
    eexists. split; [by apply list_lookup_middle|done].
  - destruct (suspended _ _ _ _) as [[r k]|] eqn:Hs; [|done].
    apply suspended_Some in Hs as (_ & _ & _ & _ & Ht').
    rewrite Ht in Ht'. done.
Qed.

Lemma conflicting_inline ps opts n o :
  ProviderWithOptions n o ∈ ps → conflicting (Some ps) (Some opts) = true.
Proof.
  intros Hin. simpl. apply existsb_exists.
  exists (ProviderWithOptions n o). split; [|done].
  by apply list_elem_of_In.
Qed.

(** C7. With the session constructor of the design document: when the
    providers list holds a selector with inline options and a parallel
    options list is given as well, the constructor of the agent raises
    the configuration error and returns no object; the only native call
    made is the session constructor, and the engine is as it was: no
    session is loaded, no run is registered, nothing is executed. *)
Theorem inline_and_parallel_options_rejected st path so ps opts n o :
  ProviderWithOptions n o ∈ ps →
  ∃ st',
    new_TrainingAgent path so (Some ps) (Some opts) st =
      (inl (Native ConfigurationError), st') ∧
    world st' = world st ∧
    trace st' =
      trace st ++ [CallInferenceSession path so (Some ps) (Some opts)].
Proof.
  intros Hin.
  pose proof (new_TrainingAgent_outcome (B:=backend)
                path so (Some ps) (Some opts) st) as H.
  simpl in H. unfold new_session in H.
  rewrite (conflicting_inline ps opts n o Hin) in H.
  destruct H as (st' & H1 & H2 & H3). by exists st'.
Qed.

End EngineClaims.

(** ** Further facts about the methods, for any native layer *)

Section More.
Context {B : Backend}.

Implicit Types (st : state) (self : nat) (a : TrainingAgent).

(** X1. When the native call of a run method raises, the method raises
    that same error, having made that one native call and changed no
    object: [run_forward] for the native [run_forward],
    [resume_forward] for the native [resume_forward], [run_backward]
    and [resume_backward] for the native [run_backward]. *)
Theorem native_error_is_raised st self a ag :
  agent_at st self a ag →
  (∀ io b ro e w,
     heap st !! io = Some (ObjIOBinding b) →
     C_run_forward ag (_iobinding b) ro (world st) = (inl e, w) →
     run_forward self io ro st =
     (inl (Native e), logged st (CallRunForward ag (_iobinding b) ro) w)) ∧
  (∀ vals r e w,
     C_resume_forward ag vals r (world st) = (inl e, w) →
     resume_forward self vals r st =
     (inl (Native e), logged st (CallResumeForward ag vals r) w)) ∧
  (∀ vals r e w,
     C_run_backward ag vals r (world st) = (inl e, w) →
     run_backward self vals r st =
     (inl (Native e), logged st (CallRunBackward ag vals r) w)) ∧
  (∀ vals r e w,
     C_run_backward ag vals r (world st) = (inl e, w) →
     resume_backward self vals r st =
     (inl (Native e), logged st (CallRunBackward ag vals r) w)).
Proof.
  intros Hag. split; [|split; [|split]].
  - intros io b ro e w Hb Hc.
    rewrite (run_forward_eq st self a ag io b ro Hag Hb).
    unfold deliver. by rewrite Hc.
  - intros vals r e w Hc.
    rewrite (resume_forward_eq st self a ag vals r Hag).
    unfold deliver. by rewrite Hc.
  - intros vals r e w Hc.
    rewrite (run_backward_eq st self a ag vals r Hag).
    unfold deliver. by rewrite Hc.
  - intros vals r e w Hc.
    rewrite (resume_backward_eq st self a ag vals r Hag).
    unfold deliver. by rewrite Hc.
Qed.

(** X2. A run method called on an object that is no constructed agent
    (its [_training_agent] is [None]) raises [AttributeError] and does
    nothing else: no native call is made and the state is the one
    before.  The same holds for [run_forward] on a constructed agent
    when the binding argument has no [_iobinding]. *)
Theorem unusable_receiver_raises st self :
  ((∀ a ag, ¬ agent_at st self a ag) →
   ∀ q, ∃ attr, perform self q st = (inl (AttributeError attr), st)) ∧
  (∀ a ag io ro,
     agent_at st self a ag →
     (∀ b, heap st !! io ≠ Some (ObjIOBinding b)) →
     run_forward self io ro st = (inl (AttributeError "_iobinding"), st)).
Proof.
  split.
  - intros Hno q.
    assert (∀ m : C_TrainingAgent → M (list OrtValue * RunId * TokenId),
              ∀ attr, ∃ attr',
              (o ← get_training_agent self; ag ← not_None attr o; m ag) st =
              (inl (AttributeError attr'), st)) as H.
    { intros m attr. unfold_M.
      destruct (heap st !! self) as [[a|b]|] eqn:Hs; simpl; eauto.
      destruct (_training_agent a) as [ag|] eqn:Ha; simpl; eauto.
      by destruct (Hno a ag). }
    destruct q; simpl; apply H.
  - intros a ag io ro [Hs Ha] Hio. unfold run_forward. unfold_M.
    rewrite Hs, Ha. simpl.
    destruct (heap st !! io) as [[a'|b]|] eqn:Hl; simpl; try done.
    by destruct (Hio b).
Qed.

(** X3. The run methods never change an agent or a binding: after any
    sequence of calls of [run_forward], [resume_forward],
    [run_backward] and [resume_backward], on any receivers and with any
    arguments, returning or raising, every agent and every binding that
    existed holds what it held. *)
Theorem run_methods_leave_objects (calls : list (nat * request)) :
  ∀ st l o,
    heap st !! l = Some o →
    heap (foldl (λ s c, (perform c.1 c.2 s).2) st calls) !! l = Some o.
Proof.
  induction calls as [|[self q] calls IH]; intros st l o Hl; [done|].
  simpl. apply IH. by apply holds_perform.
Qed.

(** X4. When the session is built but the native agent constructor
    raises, the constructor of the agent raises that same error and
    returns no object; both native constructors have been called, the
    session first, and the objects that existed are unchanged. *)
Theorem native_agent_failure_is_raised p so pr po st s w e w' :
  new_InferenceSession p so pr po (world st) = (inr s, w) →
  new_C_TrainingAgent (_sess s) w = (inl e, w') →
  ∃ st',
    new_TrainingAgent p so pr po st = (inl (Native e), st') ∧
    world st' = w' ∧
    trace st' =
      trace st ++ [CallInferenceSession p so pr po;
                   CallTrainingAgent (_sess s)] ∧
    ∀ l o, heap st !! l = Some o → heap st' !! l = Some o.
Proof.
  intros H1 H2.
  pose proof (new_TrainingAgent_outcome p so pr po st) as H. simpl in H.
  rewrite H1, H2 in H. destruct H as (st' & Hr & Hw & Ht).
  exists st'. split; [done|]. split; [done|]. split; [done|].
  intros l o Hl.
  pose proof (holds_new_TrainingAgent l o p so pr po st Hl) as Hk.
  unfold holds in Hk. by rewrite Hr in Hk.
Qed.

(** X5. The constructor never touches an agent or a binding that
    exists: whatever its outcome, each holds what it held; and the
    agent the constructor returns is none of them. *)
Theorem constructor_returns_new_object p so pr po st l o :
  heap st !! l = Some o →
  heap (new_TrainingAgent p so pr po st).2 !! l = Some o ∧
  ∀ self st', new_TrainingAgent p so pr po st = (inr self, st') → self ≠ l.
Proof.
  intros Hl. split; [by apply holds_new_TrainingAgent|].
  intros self st' Hr. rewrite new_TrainingAgent_create in Hr. simpl in Hr.
  destruct (create_training_agent _ _ _ _ _ _) as [[e|[]] st1];
    simplify_eq.
  intros Heq. apply (is_fresh (dom (heap st))).
  rewrite Heq. apply elem_of_dom. eauto.
Qed.


(** X7. [create_training_agent] on a constructed agent is not
    all-or-nothing.  If the session constructor raises, the agent is
    left exactly as it was.  If the session is built and the native
    agent constructor raises, the agent is left with the new session
    and the old native agent. *)
Theorem create_training_agent_failure_modes self p so pr po st a :
  heap st !! self = Some (ObjTrainingAgent a) →
  (∀ e w,
     new_InferenceSession p so pr po (world st) = (inl e, w) →
     create_training_agent self p so pr po st =
     (inl (Native e), logged st (CallInferenceSession p so pr po) w)) ∧
  (∀ s w e w',
     new_InferenceSession p so pr po (world st) = (inr s, w) →
     new_C_TrainingAgent (_sess s) w = (inl e, w') →
     ∃ st',
       create_training_agent self p so pr po st = (inl (Native e), st') ∧
       world st' = w' ∧
       heap st' !! self =
         Some (ObjTrainingAgent
                 (mk_TrainingAgent (_training_agent a) (Some s)))).
Proof.
  intros Hs.
  pose proof (create_training_agent_outcome self p so pr po st) as H.
  simpl in H. split.
  - intros e w H1. by rewrite H1 in H.
  - intros s w e w' H1 H2. rewrite H1, Hs, H2 in H.
    eexists. split; [exact H|]. split; [done|]. simpl.
    apply lookup_insert_eq.
Qed.

(** X8. When the native binding constructor raises, [io_binding] raises
    that same error and creates no object. *)
Theorem io_binding_raises_native_error st self a s e w :
  heap st !! self = Some (ObjTrainingAgent a) →
  _inference_session a = Some s →
  new_C_SessionIOBinding (_sess s) (world st) = (inl e, w) →
  io_binding self st =
  (inl (Native e), logged st (CallSessionIOBinding (_sess s)) w).
Proof.
  intros Hs Ha Hn. unfold io_binding, new_IOBinding, logged. unfold_M.
  rewrite Hs. simpl. rewrite Ha. simpl. by rewrite Hn.
Qed.

(** What [io_binding] asks of the native layer on an agent that holds
    a session. *)
Lemma io_binding_trace st self a s :
  heap st !! self = Some (ObjTrainingAgent a) →
  _inference_session a = Some s →
  trace (io_binding self st).2 = trace st ++ [CallSessionIOBinding (_sess s)].
Proof.
  intros Hs Ha. unfold io_binding, new_IOBinding, alloc. unfold_M.
  rewrite Hs. simpl. rewrite Ha. simpl.
  by destruct (new_C_SessionIOBinding _ _) as [[e|h] w].
Qed.

(** X9. For as long as [create_training_agent] is not called on it
    again, an agent built by the constructor hands to every binding it
    makes the [_sess] its native agent was built over: the native
    binding constructor is called on the very handle the native agent
    constructor was called on. *)
Theorem binding_shares_agent_session p so pr po st self st1 :
  new_TrainingAgent p so pr po st = (inr self, st1) →
  ∃ s,
    trace st1 =
      trace st ++ [CallInferenceSession p so pr po;
                   CallTrainingAgent (_sess s)] ∧
    ∀ acts,
      forallb (λ act, negb (recreates self act)) acts = true →
      trace (io_binding self (steps st1 acts)).2 =
        trace (steps st1 acts) ++ [CallSessionIOBinding (_sess s)].
Proof.
  intros Hr.
  pose proof (new_TrainingAgent_outcome p so pr po st) as H. simpl in H.
  destruct (new_InferenceSession p so pr po (world st)) as [[e|s] w].
  { destruct H as (? & H & _). by rewrite H in Hr. }
  destruct (new_C_TrainingAgent (_sess s) w) as [[e|ag] w'].
  { destruct H as (? & H & _). by rewrite H in Hr. }
  destruct H as (self' & st' & H & _ & Hl & _ & Ht).
  rewrite H in Hr. simplify_eq.
  exists s. split; [done|].
  intros acts Hacts.
  eapply io_binding_trace; [by apply holds_steps|done].
Qed.

(** X10. After a call of [create_training_agent] that built the session
    and then raised in the native agent constructor, the agent's
    bindings and its runs no longer belong together: [io_binding] builds
    the binding over the new session, while the run methods still call
    the native agent that was built over the old one. *)
Theorem failed_recreation_splits_agent self p so pr po st a ag s w e w' :
  agent_at st self a ag →
  new_InferenceSession p so pr po (world st) = (inr s, w) →
  new_C_TrainingAgent (_sess s) w = (inl e, w') →
  let st' := (create_training_agent self p so pr po st).2 in
  trace (io_binding self st').2 =
    trace st' ++ [CallSessionIOBinding (_sess s)] ∧
  ∀ vals rid,
    trace (resume_forward self vals rid st').2 =
      trace st' ++ [CallResumeForward ag vals rid] ∧
    trace (run_backward self vals rid st').2 =
      trace st' ++ [CallRunBackward ag vals rid].
Proof.
  intros [Hs Ha] H1 H2 st'.
  pose proof (create_training_agent_outcome self p so pr po st) as H.
  simpl in H. rewrite H1, Hs, H2 in H.
  assert (heap st' !! self =
          Some (ObjTrainingAgent (mk_TrainingAgent (Some ag) (Some s))))
    as Hl.
  { unfold st'. rewrite H. simpl. rewrite Ha. apply lookup_insert_eq. }
  split; [by eapply io_binding_trace|].
  intros vals rid.
  assert (agent_at st' self (mk_TrainingAgent (Some ag) (Some s)) ag)
    as Hag by done.
  rewrite (resume_forward_eq _ _ _ _ vals rid Hag).
  rewrite (run_backward_eq _ _ _ _ vals rid Hag).
  unfold deliver.
  destruct (C_resume_forward _ _ _ _) as [[e1|r1] w1];
    destruct (C_run_backward _ _ _ _) as [[e2|r2] w2]; done.
Qed.

End More.

(** ** The claims on the example states *)

Section Examples.
Import Engine Scenario.

Ltac run := vm_compute; reflexivity.
Ltac outcome := apply injective_projections; [run|reflexivity].

Lemma agent0_at_st2 : agent_at st2 0 obj0 ag0.
Proof. split; run. Qed.

(** C1. [resume_backward] is [run_backward] under another name: it
    makes the native [run_backward] call.  On the backward run 1 of the
    example, suspended at the yield of the backward subgraph, the
    backward resumption of the design document continues to the end of
    the backward subgraph and returns the gradients [gx] and [gy];
    [resume_backward] on the agent instead asks the engine to seed a
    backward run from run 1, which is no suspended forward run, and
    fails with the invalid-run error. *)
Theorem resume_backward_reruns_run_backward :
  (∀ (B : Backend) self vals rid,
     @resume_backward B self vals rid = @run_backward B self vals rid) ∧
  runs (world st3) !! 1 = Some (mk_run 0 Backward (AtYield 0)) ∧
  (engine_resume_backward ag0 [v "gz" 5] (at_yield 1 0) (world st3)).1 =
    inr ([v "gx" 6; v "gy" 6], handle_of 1 AtEnd, mk_token 1 AtEnd) ∧
  (resume_backward 0 [v "gz" 5] (at_yield 1 0) st3).1 =
    inl (Native InvalidRun) ∧
  trace (resume_backward 0 [v "gz" 5] (at_yield 1 0) st3).2 =
    trace st3 ++ [CallRunBackward ag0 [v "gz" 5] (at_yield 1 0)].
Proof.
  split; [reflexivity|]. split; [run|]. split; [run|]. split; run.
Qed.

(** C4. With the engine of the design document behind the agent, a
    token does not authorize one resumption of every run.  The agent
    continues backward runs through the native [run_backward] only
    (the defect of C1), which asks for a suspended forward run; so the
    identifier of a backward run is refused by every method of the
    agent, the first time as every time.  On the example,
    [run_backward] hands out the identifier of backward run 1 with its
    token; run 1 is suspended and the identifier carries its current
    token, which the backward resumption of the design document
    accepts; [resume_backward], [resume_forward] and [run_backward] on
    the agent all fail on it with the invalid-run error. *)
Theorem backward_token_admits_no_resumption :
  (∀ st self a ag q rid r,
     agent_at st self a ag →
     resumes q = Some rid →
     runs (world st) !! run_no rid = Some r →
     run_dir r = Backward →
     (perform self q st).1 = inl (Native InvalidRun) ∧
     world (perform self q st).2 = world st) ∧
  (run_backward 0 [v "gx" 5; v "gy" 7] (at_yield 0 0) st2).1 =
    inr ([mk_OrtValue (v "gz" 13)], at_yield 1 0, mk_token 1 (AtYield 0)) ∧
  suspended ag0 Backward (at_yield 1 0) (world st3) =
    Some (mk_run 0 Backward (AtYield 0), 0) ∧
  (engine_resume_backward ag0 [v "gz" 5] (at_yield 1 0) (world st3)).1 =
    inr ([v "gx" 6; v "gy" 6], handle_of 1 AtEnd, mk_token 1 AtEnd) ∧
  (resume_backward 0 [v "gz" 5] (at_yield 1 0) st3).1 =
    inl (Native InvalidRun) ∧
  (resume_forward 0 [v "gz" 5] (at_yield 1 0) st3).1 =
    inl (Native InvalidRun) ∧
  (run_backward 0 [v "gz" 5] (at_yield 1 0) st3).1 =
    inl (Native InvalidRun).
Proof.
  split; [apply backward_run_is_refused|].
  split; [run|]. split; [run|]. split; [run|].
  split; [run|]. split; run.
Qed.

Lemma backward_token_admits_no_resumption_witness :
  agent_at st3 0 obj0 ag0 ∧
  runs (world st3) !! 1 = Some (mk_run 0 Backward (AtYield 0)) ∧
  (perform 0 (ReqResumeBackward [v "gz" 5] (at_yield 1 0)) st3).1 =
    inl (Native InvalidRun) ∧
  world (perform 0 (ReqResumeBackward [v "gz" 5] (at_yield 1 0)) st3).2 =
    world st3.
Proof.
  assert (agent_at st3 0 obj0 ag0) as Hag by (split; run).
  assert (runs (world st3) !! 1 = Some (mk_run 0 Backward (AtYield 0)))
    as Hr by run.
  split; [exact Hag|]. split; [exact Hr|].
  exact (proj1 backward_token_admits_no_resumption st3 0 obj0 ag0
           (ReqResumeBackward [v "gz" 5] (at_yield 1 0)) (at_yield 1 0)
           (mk_run 0 Backward (AtYield 0)) Hag eq_refl Hr eq_refl).
Defined.

Lemma returned_values_follow_slots_witness :
  perform 0 (ReqRunForward 1 ro0) st1 =
    (inr ([mk_OrtValue (v "x" 1); mk_OrtValue (v "y" 1)],
          at_yield 0 0, mk_token 0 (AtYield 0)),
     (perform 0 (ReqRunForward 1 ro0) st1).2) ∧
  ∃ r m,
    runs (world (perform 0 (ReqRunForward 1 ro0) st1).2) !! 0 = Some r ∧
    sessions (world (perform 0 (ReqRunForward 1 ro0) st1).2)
      !! run_session r = Some m ∧
    run_token (at_yield 0 0) = mk_token 0 (AtYield 0) ∧
    mk_token 0 (AtYield 0) = mk_token 0 (run_point r) ∧
    (λ x, val_slot (_ortvalue x)) <$>
      [mk_OrtValue (v "x" 1); mk_OrtValue (v "y" 1)] =
      slots_at (subgraph_of m (run_dir r)) (run_point r) ∧
    length [mk_OrtValue (v "x" 1); mk_OrtValue (v "y" 1)] =
      length (slots_at (subgraph_of m (run_dir r)) (run_point r)) ∧
    ∃ c raw,
      trace (perform 0 (ReqRunForward 1 ro0) st1).2 = trace st1 ++ [c] ∧
      primitive_result c (world st1) =
        Some (inr (raw, at_yield 0 0, mk_token 0 (AtYield 0)),
              world (perform 0 (ReqRunForward 1 ro0) st1).2) ∧
      [mk_OrtValue (v "x" 1); mk_OrtValue (v "y" 1)] = mk_OrtValue <$> raw ∧
      length [mk_OrtValue (v "x" 1); mk_OrtValue (v "y" 1)] = length raw ∧
      (∀ i, [mk_OrtValue (v "x" 1); mk_OrtValue (v "y" 1)] !! i =
            mk_OrtValue <$> raw !! i).
Proof.
  assert (perform 0 (ReqRunForward 1 ro0) st1 =
    (inr ([mk_OrtValue (v "x" 1); mk_OrtValue (v "y" 1)],
          at_yield 0 0, mk_token 0 (AtYield 0)),
     (perform 0 (ReqRunForward 1 ro0) st1).2)) as H by outcome.
  split; [exact H|].
  exact (returned_values_follow_slots st1 0 (ReqRunForward 1 ro0) _ _ _ _ H).
Defined.

Lemma run_id_and_token_passed_through_witness :
  agent_at st2 0 obj0 ag0 ∧
  resume_forward 0 [v "x" 5; v "y" 7] (at_yield 0 0) st2 =
    (inr (mk_OrtValue <$> [v "z" 13], at_yield 0 1, mk_token 0 (AtYield 1)),
     logged st2 (CallResumeForward ag0 [v "x" 5; v "y" 7] (at_yield 0 0))
       (engine_resume_forward ag0 [v "x" 5; v "y" 7] (at_yield 0 0)
          (world st2)).2).
Proof.
  split; [exact agent0_at_st2|].
  refine (proj1 (proj2 (run_id_and_token_passed_through (B:=backend)
                          st2 0 obj0 ag0 agent0_at_st2))
            [v "x" 5; v "y" 7] (at_yield 0 0) [v "z" 13] (at_yield 0 1)
            (mk_token 0 (AtYield 1)) _ _).
  outcome.
Defined.

Lemma inputs_passed_as_given_witness :
  agent_at st2 0 obj0 ag0 ∧
  run_backward 0 [v "gx" 5; v "gy" 7] (at_yield 0 0) st2 =
    (inr ([mk_OrtValue (v "gz" 13)], at_yield 1 0, mk_token 1 (AtYield 0)),
     logged st2 (CallRunBackward ag0 [v "gx" 5; v "gy" 7] (at_yield 0 0))
       (engine_run_backward ag0 [v "gx" 5; v "gy" 7] (at_yield 0 0)
          (world st2)).2) ∧
  trace (run_backward 0 [v "gx" 5; v "gy" 7] (at_yield 0 0) st2).2 =
    trace st2 ++ [CallRunBackward ag0 [v "gx" 5; v "gy" 7] (at_yield 0 0)].
Proof.
  split; [exact agent0_at_st2|].
  pose proof (proj1 (proj2 (inputs_passed_as_given (B:=backend)
                st2 0 obj0 ag0 [v "gx" 5; v "gy" 7] (at_yield 0 0)
                agent0_at_st2))) as [H1 H2].
  split; [|exact H2].
  rewrite H1. simpl.
  assert (engine_run_backward ag0 [v "gx" 5; v "gy" 7] (at_yield 0 0)
            (world st2) =
          (inr ([v "gz" 13], at_yield 1 0, mk_token 1 (AtYield 0)),
           (engine_run_backward ag0 [v "gx" 5; v "gy" 7] (at_yield 0 0)
              (world st2)).2)) as ->
    by (apply injective_projections; [vm_compute; reflexivity|reflexivity]).
  reflexivity.
Defined.

Lemma construction_is_all_or_nothing_witness :
  (new_TrainingAgent "missing.onnx" None None None st0).1 =
    inl (Native ConstructionError) ∧
  (new_TrainingAgent "net.onnx" None
     (Some [ProviderName "TensorrtExecutionProvider"]) None st0).1 =
    inl (Native ConstructionError) ∧
  ∃ s ag, heap (new_TrainingAgent "net.onnx" None None None st0).2 !! 0 =
    Some (ObjTrainingAgent (mk_TrainingAgent (Some ag) (Some s))).
Proof.
  split; [|split].
  - refine (proj1 (construction_is_all_or_nothing (B:=backend)
                     "missing.onnx" None None None st0)
              ConstructionError w0 _).
    outcome.
  - refine (proj1 (construction_is_all_or_nothing (B:=backend) "net.onnx"
                     None (Some [ProviderName "TensorrtExecutionProvider"])
                     None st0)
              ConstructionError w0 _).
    outcome.
  - refine (proj2 (construction_is_all_or_nothing (B:=backend)
                     "net.onnx" None None None st0) 0 _ _).
    outcome.
Defined.

Lemma io_binding_is_fresh_and_bound_witness :
  ∃ b st',
    io_binding 0 st2 = (inr b, st') ∧
    heap st2 !! b = None ∧
    heap st' !! b = Some (ObjIOBinding (mk_IOBinding (mk_binding 0 []))) ∧
    heap st' !! 0 = Some (ObjTrainingAgent obj0) ∧
    (∀ l o, heap st2 !! l = Some o → heap st' !! l = Some o) ∧
    world st' = world st2 ∧
    trace st' = trace st2 ++ [CallSessionIOBinding 0].
Proof.
  refine (io_binding_is_fresh_and_bound (B:=backend) st2 0 obj0
            (mk_session 0 ["CUDAExecutionProvider"; "CPUExecutionProvider"])
            (mk_binding 0 []) (world st2) _ _ _);
    [run|reflexivity|reflexivity].
Defined.

(** C8, counterexample. On the agent of the example, a call of the
    method [create_training_agent] returns and leaves the agent with
    another session and another native agent. *)
Lemma create_training_agent_rebinds :
  heap st1 !! 0 = Some (ObjTrainingAgent obj0) ∧
  (create_training_agent 0 "plain.onnx" None None None st1).1 = inr () ∧
  heap (create_training_agent 0 "plain.onnx" None None None st1).2 !! 0 =
    Some (ObjTrainingAgent
            (mk_TrainingAgent (Some (mk_agent 1))
               (Some (mk_session 1 ["CUDAExecutionProvider";
                                    "CPUExecutionProvider"])))) ∧
  heap (create_training_agent 0 "plain.onnx" None None None st1).2 !! 0 ≠
    heap st1 !! 0.
Proof.
  split; [run|]. split; [run|]. split; [run|]. vm_compute. congruence.
Qed.

Lemma association_kept_by_operations_witness :
  new_TrainingAgent "net.onnx" None None None st0 =
    (inr 0, (new_TrainingAgent "net.onnx" None None None st0).2) ∧
  ∃ s ag w,
    new_session "net.onnx" None None None (world st0) = (inr s, w) ∧
    new_agent (sess_handle s) w =
      (inr ag, world (new_TrainingAgent "net.onnx" None None None st0).2) ∧
    trace (new_TrainingAgent "net.onnx" None None None st0).2 =
      trace st0 ++ [CallInferenceSession "net.onnx" None None None;
                    CallTrainingAgent (sess_handle s)] ∧
    ∀ acts,
      forallb (λ act, negb (recreates 0 act)) acts = true →
      heap (steps (new_TrainingAgent "net.onnx" None None None st0).2 acts)
        !! 0 =
        Some (ObjTrainingAgent (mk_TrainingAgent (Some ag) (Some s))).
Proof.
  assert (new_TrainingAgent "net.onnx" None None None st0 =
    (inr 0, (new_TrainingAgent "net.onnx" None None None st0).2)) as H
    by outcome.
  split; [exact H|].
  exact (association_kept_by_operations (B:=backend) _ _ _ _ _ _ _ H).
Defined.

Lemma token_authorizes_one_resumption_witness :
  (∃ res st', resume_forward 0 [v "x" 5; v "y" 7] (at_yield 0 0) st2 =
                (inr res, st')) ∧
  (resume_forward 0 [v "x" 5; v "y" 7] (at_yield 0 0) st2).1 =
    inr ([mk_OrtValue (v "z" 13)], at_yield 0 1, mk_token 0 (AtYield 1)) ∧
  (resume_forward 0 [v "x" 5; v "y" 7] (at_yield 0 0)
     (steps (step st2 (ActRun 0 (ReqResumeForward [v "x" 5; v "y" 7]
                                   (at_yield 0 0))))
        [ActIoBinding 0])).1 = inl (Native InvalidRun) ∧
  (run_backward 0 [v "gx" 5; v "gy" 7]
     (mk_run_id 0 (mk_token 1 (AtYield 0))) st2).1 =
    inl (Native InvalidRun) ∧
  (resume_forward 2 [v "x" 5; v "y" 7] (at_yield 0 0) st4).1 =
    inl (Native InvalidRun) ∧
  (run_backward 2 [v "gx" 5; v "gy" 7] (at_yield 0 0) st4).1 =
    inl (Native InvalidRun).
Proof.
  destruct token_authorizes_one_resumption as (T0 & T1 & T2 & T3 & T4).
  split; [|split; [run|split; [|split; [|split]]]].
  - refine (T0 st2 0 obj0 ag0 [v "x" 5; v "y" 7] (at_yield 0 0)
              (mk_run 0 Forward (AtYield 0)) 0 net agent0_at_st2 _ _ _); run.
  - refine (T1 st2 0 (ReqResumeForward [v "x" 5; v "y" 7] (at_yield 0 0))
              (at_yield 0 0)
              ([mk_OrtValue (v "z" 13)], at_yield 0 1, mk_token 0 (AtYield 1))
              (step st2 (ActRun 0 (ReqResumeForward [v "x" 5; v "y" 7]
                                     (at_yield 0 0))))
              eq_refl _ [ActIoBinding 0] 0 obj0 ag0
              (ReqResumeForward [v "x" 5; v "y" 7] (at_yield 0 0)) eq_refl _).
    + outcome.
    + split; run.
  - refine (proj1 (T2 st2 0 obj0 ag0
              (ReqRunBackward [v "gx" 5; v "gy" 7]
                 (mk_run_id 0 (mk_token 1 (AtYield 0))))
              _ agent0_at_st2 eq_refl _)).
    simpl. lia.
  - refine (proj1 (T3 st4 2 obj2 (mk_agent 1)
              (ReqResumeForward [v "x" 5; v "y" 7] (at_yield 0 0))
              (at_yield 0 0) (mk_run 0 Forward (AtYield 0)) _ eq_refl _ _)).
    + split; run.
    + run.
    + simpl. lia.
  - refine (proj1 (T4 st0 script4 0 obj0 ag0 2 obj2 (mk_agent 1)
              (ReqRunBackward [v "gx" 5; v "gy" 7] (at_yield 0 0))
              (at_yield 0 0) (mk_run 0 Forward (AtYield 0))
              eq_refl _ _ _ eq_refl _ eq_refl)).
    + split; run.
    + split; run.
    + lia.
    + run.
Defined.

Lemma run_without_yield_is_terminal_witness :
  ∃ vals rid tok st5,
    run_forward 2 3 ro0 st4 = (inr (vals, rid, tok), st5) ∧
    _ortvalue <$> vals = produce plain ["out1"; "out2"] [] ∧
    (λ x, val_slot (_ortvalue x)) <$> vals = ["out1"; "out2"] ∧
    run_token rid = tok ∧
    tok_point tok = AtEnd ∧
    ∀ acts self' a' ag' q rid',
      agent_at (steps st5 acts) self' a' ag' →
      resumes q = Some rid' →
      run_no rid' = run_no rid ∨ run_token rid' = tok →
      (perform self' q (steps st5 acts)).1 = inl (Native InvalidRun).
Proof.
  refine (run_without_yield_is_terminal st4 2
            (mk_TrainingAgent (Some (mk_agent 1))
               (Some (mk_session 1 ["CUDAExecutionProvider";
                                    "CPUExecutionProvider"])))
            (mk_agent 1) 3 (mk_IOBinding (mk_binding 1 [])) ro0 plain
            _ _ _ _).
  - split; run.
  - run.
  - run.
  - reflexivity.
Defined.

Lemma inline_and_parallel_options_rejected_witness :
  ∃ st',
    new_TrainingAgent "net.onnx" None
      (Some [ProviderWithOptions "CUDAExecutionProvider" [("device_id", "0")];
             ProviderName "CPUExecutionProvider"])
      (Some [[("device_id", "1")]; []]) st0 =
      (inl (Native ConfigurationError), st') ∧
    world st' = world st0 ∧
    trace st' =
      trace st0 ++
      [CallInferenceSession "net.onnx" None
         (Some [ProviderWithOptions "CUDAExecutionProvider"
                  [("device_id", "0")];
                ProviderName "CPUExecutionProvider"])
         (Some [[("device_id", "1")]; []])].
Proof.
  refine (inline_and_parallel_options_rejected st0 "net.onnx" None _ _
            "CUDAExecutionProvider" [("device_id", "0")] _).
  apply list_elem_of_here.
Defined.

End Examples.

(** ** The further facts on example states *)

Section MoreExamples.
Import Engine Scenario.

Ltac run := vm_compute; reflexivity.
Ltac outcome := apply injective_projections; [run|reflexivity].

Lemma native_error_is_raised_witness :
  agent_at st1 0 obj0 ag0 ∧
  resume_forward 0 [v "x" 5] (at_yield 7 0) st1 =
    (inl (Native InvalidRun),
     logged st1 (CallResumeForward ag0 [v "x" 5] (at_yield 7 0)) (world st1)).
Proof.
  assert (agent_at st1 0 obj0 ag0) as Hag by (split; run).
  split; [exact Hag|].
  refine (proj1 (proj2 (native_error_is_raised (B:=backend)
                          st1 0 obj0 ag0 Hag))
            [v "x" 5] (at_yield 7 0) InvalidRun (world st1) _).
  outcome.
Defined.

Lemma unusable_receiver_raises_witness :
  (∃ attr, perform 1 (ReqResumeForward [v "x" 5] (at_yield 0 0)) st1 =
             (inl (AttributeError attr), st1)) ∧
  run_forward 0 0 ro0 st1 = (inl (AttributeError "_iobinding"), st1).
Proof.
  split.
  - refine (proj1 (unusable_receiver_raises (B:=backend) st1 1) _
              (ReqResumeForward [v "x" 5] (at_yield 0 0))).
    intros a ag [H _]. vm_compute in H. discriminate.
  - refine (proj2 (unusable_receiver_raises (B:=backend) st1 0)
              obj0 ag0 0 ro0 _ _).
    + split; run.
    + intros b H. vm_compute in H. discriminate.
Defined.

Lemma run_methods_leave_objects_witness :
  heap st1 !! 0 = Some (ObjTrainingAgent obj0) ∧
  heap (foldl (λ s c, (perform c.1 c.2 s).2) st1
          [(0, ReqRunForward 1 ro0);
           (0, ReqResumeForward [v "x" 5; v "y" 7] (at_yield 0 0));
           (1, ReqRunBackward [] (at_yield 0 1))]) !! 0 =
    Some (ObjTrainingAgent obj0).
Proof.
  assert (heap st1 !! 0 = Some (ObjTrainingAgent obj0)) as H by run.
  split; [exact H|].
  exact (run_methods_leave_objects (B:=backend) _ st1 0 _ H).
Defined.

Lemma constructor_returns_new_object_witness :
  heap st2 !! 0 = Some (ObjTrainingAgent obj0) ∧
  new_TrainingAgent "plain.onnx" None None None st2 =
    (inr 2, (new_TrainingAgent "plain.onnx" None None None st2).2) ∧
  heap (new_TrainingAgent "plain.onnx" None None None st2).2 !! 0 =
    Some (ObjTrainingAgent obj0) ∧
  2 ≠ 0.
Proof.
  assert (heap st2 !! 0 = Some (ObjTrainingAgent obj0)) as Hl by run.
  assert (new_TrainingAgent "plain.onnx" None None None st2 =
    (inr 2, (new_TrainingAgent "plain.onnx" None None None st2).2)) as H
    by outcome.
  pose proof (constructor_returns_new_object (B:=backend)
                "plain.onnx" None None None st2 0 _ Hl) as [H1 H2].
  split; [exact Hl|]. split; [exact H|]. split; [exact H1|].
  exact (H2 2 _ H).
Defined.


Lemma create_training_agent_failure_modes_witness :
  create_training_agent 0 "missing.onnx" None None None st1 =
    (inl (Native ConstructionError),
     logged st1 (CallInferenceSession "missing.onnx" None None None)
       (world st1)) ∧
  ∃ st',
    @create_training_agent Scripted.backend 0 "other.onnx" None None None
      (Scripted.built [true; true; true; false]) =
      (inl (@Native Scripted.backend "native failure"), st') ∧
    @world Scripted.backend st' = Scripted.mk_script [] 4 ∧
    @heap Scripted.backend st' !! 0 =
      Some (ObjTrainingAgent
              (@mk_TrainingAgent Scripted.backend (Some 0) (Some 2))).
Proof.
  split.
  - refine (proj1 (create_training_agent_failure_modes (B:=backend)
                     0 "missing.onnx" None None None st1 obj0 _)
              ConstructionError (world st1) _).
    + run.
    + outcome.
  - refine (proj2 (create_training_agent_failure_modes (B:=Scripted.backend)
                     0 "other.onnx" None None None
                     (Scripted.built [true; true; true; false])
                     Scripted.agent0 _)
              2 (Scripted.mk_script [false] 3) "native failure"
              (Scripted.mk_script [] 4) _ _); run.
Defined.

Lemma binding_shares_agent_session_witness :
  new_TrainingAgent "net.onnx" None None None st0 =
    (inr 0, (new_TrainingAgent "net.onnx" None None None st0).2) ∧
  ∃ s,
    trace (new_TrainingAgent "net.onnx" None None None st0).2 =
      trace st0 ++ [CallInferenceSession "net.onnx" None None None;
                    CallTrainingAgent (sess_handle s)] ∧
    ∀ acts,
      forallb (λ act, negb (recreates 0 act)) acts = true →
      trace (io_binding 0
               (steps (new_TrainingAgent "net.onnx" None None None st0).2
                  acts)).2 =
        trace (steps (new_TrainingAgent "net.onnx" None None None st0).2
                 acts) ++ [CallSessionIOBinding (sess_handle s)].
Proof.
  assert (new_TrainingAgent "net.onnx" None None None st0 =
    (inr 0, (new_TrainingAgent "net.onnx" None None None st0).2)) as H
    by outcome.
  split; [exact H|].
  exact (binding_shares_agent_session (B:=backend) _ _ _ _ _ _ _ H).
Defined.

End MoreExamples.

(** ** The failure paths on the native layer that fails on demand *)

Section ScriptedExamples.
Import Scripted.
#[local] Existing Instance Scripted.backend | 0.

Ltac run := vm_compute; reflexivity.

Lemma agent0_at_built outcomes :
  outcomes = [true; true; false] ∨ outcomes = [true; true; true; false] →
  agent_at (built outcomes) 0 agent0 0.
Proof. intros [->| ->]; split; run. Qed.

Lemma native_agent_failure_is_raised_witness :
  ∃ st',
    new_TrainingAgent "model.onnx" None None None
      (start [true; false]) =
      (inl (Native "native failure"), st') ∧
    world st' = mk_script [] 2 ∧
    trace st' =
      [CallInferenceSession "model.onnx" None None None;
       CallTrainingAgent 0] ∧
    ∀ l o, heap (start [true; false]) !! l = Some o →
           heap st' !! l = Some o.
Proof.
  exact (native_agent_failure_is_raised 
           "model.onnx" None None None (start [true; false])
           0 (mk_script [false] 1) "native failure"
           (mk_script [] 2) eq_refl eq_refl).
Defined.

Lemma io_binding_raises_native_error_witness :
  io_binding 0 (built [true; true; false]) =
    (inl (Native "native failure"),
     logged (built [true; true; false])
       (CallSessionIOBinding 0) (mk_script [] 3)).
Proof.
  refine (io_binding_raises_native_error 
            (built [true; true; false]) 0 agent0 0
            "native failure" (mk_script [] 3) _ _ _); run.
Defined.

Lemma failed_recreation_splits_agent_witness :
  agent_at (built [true; true; true; false])
    0 agent0 0 ∧
  trace (io_binding 0
           (create_training_agent 0 "other.onnx"
              None None None
              (built [true; true; true; false])).2).2 =
    trace (create_training_agent 0 "other.onnx"
             None None None (built [true; true; true; false])).2
    ++ [CallSessionIOBinding 2] ∧
  trace (resume_forward 0 [5%Z] 9
           (create_training_agent 0 "other.onnx"
              None None None
              (built [true; true; true; false])).2).2 =
    trace (create_training_agent 0 "other.onnx"
             None None None (built [true; true; true; false])).2
    ++ [CallResumeForward 0 [5%Z] 9].
Proof.
  assert (agent_at
            (built [true; true; true; false]) 0 agent0 0)
    as Hag by (apply agent0_at_built; by right).
  split; [exact Hag|].
  pose proof (failed_recreation_splits_agent 
                0 "other.onnx" None None None
                (built [true; true; true; false])
                agent0 0 2 (mk_script [false] 3)
                "native failure" (mk_script [] 4)
                Hag eq_refl eq_refl) as [H1 H2].
  split; [exact H1|exact (proj1 (H2 [5%Z] 9))].
Defined.

End ScriptedExamples.
